(** * The data-fetching hooks [useFetch] and [useFetchMultiple]

    A shallow embedding of the two React hooks of the library that drive
    axios GET requests, and the properties of their state that the
    specification lists.

    The hooks are event driven: the component mounts, the caller invokes
    [refetch], [refetchIndex] or [setData], a dependency changes, a request
    settles, the component unmounts.  Each event is one step of a
    transition function over the React state of the hook together with the
    requests that are still in flight.  A state is taken once React has
    re-rendered and flushed the effects that the event scheduled, and the
    events are taken one per render.

    [useFetchMultiple] follows the TypeScript source; the JavaScript source
    is the same but for the message of [refetchIndex], which it reads
    without optional chaining. [useFetch] follows the JavaScript source. *)

From stdpp Require Import gmap strings list fin_maps.

Open Scope string_scope.
Open Scope nat_scope.
Open Scope list_scope.
Open Scope stdpp_scope.

(** ** JavaScript values and arrays *)

(** A defined JavaScript value.  [undefined] is the [None] of an
    [option JsVal]; objects and arrays are opaque references, which is all
    that the hooks observe of them. Numbers are integers here; [NaN] is
    not represented. *)
Inductive JsVal : Type :=
  | JNull
  | JBool (b : bool)
  | JNum (z : Z)
  | JStr (s : string)
  | JRef (r : nat).

#[global] Instance JsVal_eq_dec : EqDecision JsVal.
Proof. solve_decision. Defined.

(** The test of [if (d)]: [null], [false], [0] and the empty string are
    falsy, every object is truthy. *)
Definition truthy (v : JsVal) : bool :=
  match v with
  | JNull => false
  | JBool b => b
  | JNum z => negb (Z.eqb z 0)
  | JStr s => negb (String.eqb s "")
  | JRef _ => true
  end.

(** The same test on a value that may be [undefined]. *)
Definition truthy_cell (c : option JsVal) : bool :=
  match c with
  | Some v => truthy v
  | None => false
  end.

(** A JavaScript array: a cell is [None] where the array holds
    [undefined] (a hole reads as [undefined] as well, and spreading an
    array turns its holes into [undefined]). *)
Abbreviation JsArray A := (list (option A)).

(** [arr[i]]: reading past the end gives [undefined]. *)
Definition js_get {A} (arr : JsArray A) (i : nat) : option A :=
  default None (arr !! i).

(** [const copy = [...arr]; copy[i] = v; return copy]: inside the array
    the cell is replaced, past its end the array grows and the cells in
    between are [undefined]. *)
Definition js_set {A} (i : nat) (v : A) (arr : JsArray A) : JsArray A :=
  if decide (i < length arr) then <[i := Some v]> arr
  else arr ++ replicate (i - length arr) None ++ [Some v].

(** [Array(n).fill(v)] *)
Definition js_fill {A} (n : nat) (v : A) : JsArray A := replicate n (Some v).

(** The number of cells that are not [undefined]. *)
Definition js_count {A} (arr : JsArray A) : nat :=
  length (filter (λ c, is_Some c) arr).

(** ** What axios hands to the handlers *)

(** An [AxiosResponse]: the parsed body and the status. With the default
    configuration, which is the one the hooks use, the body is a string or
    the result of [JSON.parse], hence a defined value. *)
Record AxiosResponse : Type := mkResponse {
  res_data : JsVal;
  res_status : Z
}.

(** The reason of a rejected request: [message], whether [isCancel]
    recognises it, and [response.data.title] where there is one, which is
    whatever value the body of the reply gives under that key. *)
Record AxiosError : Type := mkError {
  err_message : option string;
  err_isCancel : bool;
  err_title : option JsVal
}.

#[global] Instance AxiosResponse_eq_dec : EqDecision AxiosResponse.
Proof. solve_decision. Defined.
#[global] Instance AxiosError_eq_dec : EqDecision AxiosError.
Proof. solve_decision. Defined.

Definition isCancel (e : AxiosError) : bool := err_isCancel e.

(** The [CanceledError] with which axios rejects a request whose signal
    was aborted. *)
Definition CanceledError : AxiosError :=
  {| err_message := Some "canceled"; err_isCancel := true; err_title := None |}.

(** [m || 'Something went wrong'] for a string [m] that may be
    [undefined]: the empty string is falsy too. *)
Definition or_default (m : option string) : string :=
  match m with
  | Some s => if String.eqb s "" then "Something went wrong" else s
  | None => "Something went wrong"
  end.

(** [t || 'Something went wrong'] for a value [t] of any type that may be
    [undefined]: a truthy value is kept as it is. *)
Definition title_or_default (t : option JsVal) : JsVal :=
  match t with
  | Some v => if truthy v then v else JStr "Something went wrong"
  | None => JStr "Something went wrong"
  end.

(** A failure that is not a cancellation, and a response with a truthy
    body, for the scenarios below. *)
Definition timeoutError : AxiosError :=
  {| err_message := Some "timeout"; err_isCancel := false; err_title := None |}.

Definition okResponse (id : nat) : AxiosResponse :=
  {| res_data := JRef id; res_status := 200 |}.

(** ** Promises *)

(** A settled promise. *)
Inductive Settled (A : Type) : Type :=
  | Fulfilled (a : A)
  | Rejected (reason : AxiosError).
Arguments Fulfilled {A} a.
Arguments Rejected {A} reason.

#[global] Instance Settled_eq_dec {A} `{EqDecision A} : EqDecision (Settled A).
Proof. solve_decision. Defined.

(** A request that has a signal is rejected with a cancellation exactly
    when the signal was aborted before it settled; a request without a
    signal ([aborted = false]) is never cancelled. *)
Definition admissible {A} (aborted : bool) (o : Settled A) : bool :=
  match o with
  | Fulfilled _ => negb aborted
  | Rejected e => Bool.eqb (isCancel e) aborted
  end.

(** ** Handlers: a state monad over the state of a hook

    A handler calls state setters one after the other. React applies the
    queued updates in the order of the calls, so a handler is a function
    from the state before to a result and the state after. *)
Definition Handler (S A : Type) : Type := S → A * S.

Definition ret {S A} (a : A) : Handler S A := λ s, (a, s).

Definition bind {S A B} (m : Handler S A) (k : A → Handler S B) : Handler S B :=
  λ s, let (a, s') := m s in k a s'.

Definition modify {S} (f : S → S) : Handler S unit := λ s, (tt, f s).

Declare Scope handler_scope.
Delimit Scope handler_scope with handler.
Notation "x '<-' m ';;' k" := (bind m (λ x, k))
  (at level 100, m at level 99, right associativity) : handler_scope.
Notation "m ';;' k" := (bind m (λ _, k))
  (at level 100, right associativity) : handler_scope.

Section Promise.
Context {S : Type}.
Local Open Scope handler_scope.

(** [p.then(onFulfilled)]: the callback runs on fulfilment, a rejection
    passes through. The callbacks of the hooks only call setters, so
    they do not throw. *)
Definition p_then {A B} (p : Handler S (Settled A)) (onFulfilled : A → Handler S B)
  : Handler S (Settled B) :=
  r <- p ;;
  match r with
  | Fulfilled a => b <- onFulfilled a ;; ret (Fulfilled b)
  | Rejected e => ret (Rejected e)
  end.

(** [p.catch(onRejected)]: the callback handles the rejection, and the
    promise that results is fulfilled with what it returns. *)
Definition p_catch {A} (p : Handler S (Settled A)) (onRejected : AxiosError → Handler S A)
  : Handler S (Settled A) :=
  r <- p ;;
  match r with
  | Fulfilled a => ret (Fulfilled a)
  | Rejected e => a <- onRejected e ;; ret (Fulfilled a)
  end.

(** [Promise.allSettled(ps)] once every promise of [ps] has settled: it
    is fulfilled with the outcomes, in the order of [ps]. *)
Definition allSettled {A} (ps : list (Settled A)) : Settled (list (Settled A)) :=
  Fulfilled ps.

(** [try { await p } catch (err) { onError(err) }] *)
Definition try_await {A} (p : Settled A) (onError : AxiosError → Handler S unit)
  : Handler S unit :=
  match p with
  | Fulfilled _ => ret tt
  | Rejected err => onError err
  end.
End Promise.

(** ** The single-fetch controller: [useFetch] *)

Module UseFetch.
Local Open Scope handler_scope.

(** The [response] cell: [null], the response of a fulfilled request, or
    the reason of a rejected one. *)
Inductive ResponseCell : Type :=
  | NoResponse
  | OfResponse (res : AxiosResponse)
  | OfError (err : AxiosError).

(** The five [useState] cells. *)
Record HookState : Type := mkHook {
  isLoading : bool;
  data : option JsVal;
  error : string;
  response : ResponseCell;
  retries : nat
}.

Definition setIsLoading (b : bool) : Handler HookState unit :=
  modify (λ h, mkHook b (data h) (error h) (response h) (retries h)).
Definition setData (v : option JsVal) : Handler HookState unit :=
  modify (λ h, mkHook (isLoading h) v (error h) (response h) (retries h)).
Definition setError (m : string) : Handler HookState unit :=
  modify (λ h, mkHook (isLoading h) (data h) m (response h) (retries h)).
Definition setResponse (r : ResponseCell) : Handler HookState unit :=
  modify (λ h, mkHook (isLoading h) (data h) (error h) r (retries h)).
Definition setRetries (f : nat → nat) : Handler HookState unit :=
  modify (λ h, mkHook (isLoading h) (data h) (error h) (response h) (f (retries h))).

(** The values of the [useState] calls at the first render. *)
Definition initial : HookState :=
  {| isLoading := true; data := Some JNull; error := ""; response := NoResponse;
     retries := 0 |}.

(** [fetchData] up to the [await]: the two setters that precede the
    request. *)
Definition fetchData_start : Handler HookState unit :=
  setIsLoading true ;; setError "".

(** [fetchData] from the moment [axios.get] settles with [o]: the [then]
    and [catch] callbacks of the chain. *)
Definition fetchData_settle (o : Settled AxiosResponse) : Handler HookState (Settled unit) :=
  p_catch
    (p_then (ret o) (λ res,
       setData (Some (res_data res)) ;;
       setResponse (OfResponse res) ;;
       setIsLoading false))
    (λ err,
       if negb (isCancel err) then ret tt
       else
         setError (or_default (err_message err)) ;;
         setIsLoading false ;;
         setResponse (OfError err)).

(** [refetch] *)
Definition refetch : Handler HookState unit := setRetries (λ prev, prev + 1).

(** The hook in its environment: the React state, whether the component
    is mounted, the number of the last run of the effect, and for every run
    whose request is in flight whether its [AbortController] has been
    aborted. *)
Record Sys : Type := mkSys {
  hook : HookState;
  mounted : bool;
  generation : nat;
  controllers : gmap nat bool
}.

(** A handler acts on the state of a mounted component; React drops the
    updates of an unmounted one. *)
Definition dispatch {A} (m : Handler HookState A) (s : Sys) : Sys :=
  if mounted s
  then mkSys (snd (m (hook s))) (mounted s) (generation s) (controllers s)
  else s.

(** The cleanup of the effect: [controller.abort()] on the controller of
    the last run. *)
Definition cleanup (s : Sys) : Sys :=
  mkSys (hook s) (mounted s) (generation s)
        (alter (λ _, true) (generation s) (controllers s)).

(** Run number [g] of the effect: a new controller, and [fetchData]
    called. *)
Definition effect (g : nat) (s : Sys) : Sys :=
  let s' := dispatch fetchData_start s in
  mkSys (hook s') (mounted s') g (<[g := false]> (controllers s')).

(** The state after the first render and its effect. *)
Definition mount : Sys :=
  effect 0 (mkSys initial true 0 ∅).

Inductive Event : Type :=
  | Refetch
  | DepsChange
  | SetData (v : option JsVal)
  | Settle (g : nat) (o : Settled AxiosResponse)
  | Unmount.

(** One event. A change of [retries] or of a dependency re-runs the
    effect: the cleanup of the previous run, then the next run. [Settle g o]
    is enabled when the request of run [g] is in flight and [o] is an
    outcome axios can give it. *)
Definition step (ev : Event) (s : Sys) : option Sys :=
  match ev with
  | Refetch =>
      Some (if mounted s
            then effect (S (generation s)) (cleanup (dispatch refetch s))
            else s)
  | DepsChange =>
      Some (if mounted s then effect (S (generation s)) (cleanup s) else s)
  | SetData v => Some (dispatch (setData v) s)
  | Settle g o =>
      aborted ← controllers s !! g;
      guard (admissible aborted o = true);;
      let s' := dispatch (fetchData_settle o) s in
      Some (mkSys (hook s') (mounted s') (generation s') (delete g (controllers s')))
  | Unmount =>
      Some (if mounted s
            then let s' := cleanup s in
                 mkSys (hook s') false (generation s') (controllers s')
            else s)
  end%stdpp.

Fixpoint run (evs : list Event) (s : Sys) : option Sys :=
  match evs with
  | [] => Some s
  | ev :: evs' => s' ← step ev s; run evs' s'
  end.

End UseFetch.

(** ** The multi-fetch orchestrator: [useFetchMultiple] *)

Module UseFetchMultiple.
Local Open Scope handler_scope.

(** The six [useState] cells. *)
Record HookState : Type := mkHook {
  data : JsArray JsVal;
  errors : JsArray JsVal;
  error : string;
  responses : JsArray AxiosResponse;
  loadingIndex : JsArray bool;
  retries : nat
}.

(** A render in preparation: the state with the queued updates applied,
    and whether [data] was given a new value, which is what the dependency
    list [[data]] of the second effect compares. *)
Record Render : Type := mkRender {
  cur : HookState;
  dataChanged : bool
}.

Definition setData (f : JsArray JsVal → JsArray JsVal) : Handler Render unit :=
  modify (λ r, let h := cur r in
    mkRender (mkHook (f (data h)) (errors h) (error h) (responses h) (loadingIndex h) (retries h))
             true).
Definition setErrors (f : JsArray JsVal → JsArray JsVal) : Handler Render unit :=
  modify (λ r, let h := cur r in
    mkRender (mkHook (data h) (f (errors h)) (error h) (responses h) (loadingIndex h) (retries h))
             (dataChanged r)).
Definition setError (m : string) : Handler Render unit :=
  modify (λ r, let h := cur r in
    mkRender (mkHook (data h) (errors h) m (responses h) (loadingIndex h) (retries h))
             (dataChanged r)).
Definition setResponses (f : JsArray AxiosResponse → JsArray AxiosResponse)
  : Handler Render unit :=
  modify (λ r, let h := cur r in
    mkRender (mkHook (data h) (errors h) (error h) (f (responses h)) (loadingIndex h) (retries h))
             (dataChanged r)).
Definition setLoadingIndex (f : JsArray bool → JsArray bool) : Handler Render unit :=
  modify (λ r, let h := cur r in
    mkRender (mkHook (data h) (errors h) (error h) (responses h) (f (loadingIndex h)) (retries h))
             (dataChanged r)).
Definition setRetries (f : nat → nat) : Handler Render unit :=
  modify (λ r, let h := cur r in
    mkRender (mkHook (data h) (errors h) (error h) (responses h) (loadingIndex h) (f (retries h)))
             (dataChanged r)).

(** The promise [axios.get(url, ...).then(...).catch(...)] that the bulk
    cycle builds for slot [index], from the moment the request settles
    with [o]. *)
Definition request (index : nat) (o : Settled AxiosResponse) : Handler Render (Settled unit) :=
  p_catch
    (p_then (ret o) (λ response,
       setData (js_set index (res_data response)) ;;
       setResponses (js_set index response)))
    (λ error, setErrors (js_set index (JStr (or_default (err_message error))))).

(** [fetchData] from the moment [await Promise.allSettled(requests)]
    resumes, [rs] being the outcomes of the request promises: the rest of
    the [try] block is empty, and a rejection goes to the [catch] block. *)
Definition fetchData_resume (rs : list (Settled unit)) : Handler Render unit :=
  try_await (allSettled rs) (λ err,
    if isCancel err then ret tt
    else setError (or_default (err_message err))).

(** The promise chain of [refetchIndex(index)] from the moment its request
    settles with [o]. *)
Definition refetchIndex_settle (index : nat) (o : Settled AxiosResponse)
  : Handler Render (Settled unit) :=
  p_catch
    (p_then (ret o) (λ res,
       setData (js_set index (res_data res)) ;;
       setResponses (js_set index res)))
    (λ err, setErrors (js_set index (title_or_default (err_title err)))).

(** [refetch] *)
Definition refetch : Handler Render unit := setRetries (λ prev, prev + 1).

(** The second effect, [data.map((d, i) => { if (d) setLoadingIndex(...) })],
    from position [i] on. *)
Fixpoint loading_effect_from (i : nat) (d : JsArray JsVal) : Handler Render unit :=
  match d with
  | [] => ret tt
  | c :: d' =>
      (if truthy_cell c then setLoadingIndex (js_set i false) else ret tt) ;;
      loading_effect_from (S i) d'
  end.

Definition loading_effect (d : JsArray JsVal) : Handler Render unit :=
  loading_effect_from 0 d.

(** The commit of a render: the second effect runs when [data] changed.
    Its own updates change no dependency of an effect. *)
Definition commit (r : Render) : HookState :=
  if dataChanged r
  then cur (snd (loading_effect (data (cur r)) (mkRender (cur r) false)))
  else cur r.

(** A handler run from the committed state [h], up to the next committed
    state. *)
Definition render {A} (m : Handler Render A) (h : HookState) : A * HookState :=
  let (a, r) := m (mkRender h false) in (a, commit r).

Section Hook.
(** The [urls] argument of the hook, the same at every render. *)
Variable urls : list string.

(** The values of the [useState] calls at the first render. *)
Definition initial : HookState :=
  {| data := []; errors := []; error := ""; responses := [];
     loadingIndex := js_fill (length urls) true; retries := 0 |}.

(** One run of the first effect, as long as [fetchData] is waiting: the
    [controllers] (for each, whether it has been aborted) and, slot by
    slot, the outcome of the request promise once it has settled. *)
Record Cycle : Type := mkCycle {
  controllers : list bool;
  settled : list (option (Settled unit))
}.

(** A run that has just started:
    [controllers = urls.map(() => new AbortController())], and one request
    per url, none of them settled. *)
Definition fresh_cycle : Cycle :=
  mkCycle ((λ _, false) <$> urls) ((λ _, None) <$> urls).

(** The hook in its environment: the React state, whether the component
    is mounted, the number of the last run of the first effect, the runs
    whose [fetchData] is waiting, and the requests of [refetchIndex] that
    are in flight, each with its index. *)
Record Sys : Type := mkSys {
  hook : HookState;
  mounted : bool;
  generation : nat;
  cycles : gmap nat Cycle;
  targeted : gmap nat nat;
  nextTargeted : nat
}.

(** A handler acts on the state of a mounted component; React drops the
    updates of an unmounted one. *)
Definition dispatch {A} (m : Handler Render A) (s : Sys) : A * Sys :=
  let (a, h) := render m (hook s) in
  (a, if mounted s
      then mkSys h (mounted s) (generation s) (cycles s) (targeted s) (nextTargeted s)
      else s).

Definition with_cycles (c : gmap nat Cycle) (s : Sys) : Sys :=
  mkSys (hook s) (mounted s) (generation s) c (targeted s) (nextTargeted s).

(** [controllers.forEach((controller) => controller.abort())] *)
Definition abort (c : Cycle) : Cycle :=
  mkCycle ((λ _, true) <$> controllers c) (settled c).

(** The cleanup of the first effect, on the controllers of its last run. *)
Definition cleanup (s : Sys) : Sys :=
  with_cycles (alter abort (generation s) (cycles s)) s.

(** [await Promise.allSettled(requests)] for run [g]: once every request
    promise has settled, [fetchData] resumes and the run is over. *)
Definition await_all (g : nat) (s : Sys) : Sys :=
  match cycles s !! g with
  | Some c =>
      match mapM id (settled c) with
      | Some rs =>
          with_cycles (delete g (cycles s)) (snd (dispatch (fetchData_resume rs) s))
      | None => s
      end
  | None => s
  end.

(** Run number [g] of the first effect: one controller and one request
    per url, and [fetchData] waits for them. *)
Definition effect (g : nat) (s : Sys) : Sys :=
  await_all g
    (mkSys (hook s) (mounted s) g (<[g := fresh_cycle]> (cycles s)) (targeted s)
           (nextTargeted s)).

(** The state after the first render and its effects. *)
Definition mount : Sys :=
  effect 0 (mkSys initial true 0 ∅ ∅ 0).

(** The requests: the one of slot [index] in run [g] of the effect, or the
    [k]-th one issued by [refetchIndex]. *)
Inductive Attempt : Type :=
  | Bulk (g index : nat)
  | Targeted (k : nat).

Inductive Event : Type :=
  | Refetch
  | DepsChange
  | SetData (v : JsArray JsVal)
  | RefetchIndex (index : nat)
  | Settle (a : Attempt) (o : Settled AxiosResponse)
  | Unmount.

(** One event. A change of [retries] or of a dependency re-runs the first
    effect: the cleanup of the previous run, then the next run.
    [refetchIndex] passes no signal to its request. [Settle a o] is enabled
    when [a] is in flight and [o] is an outcome axios can give it. *)
Definition step (ev : Event) (s : Sys) : option Sys :=
  match ev with
  | Refetch =>
      Some (if mounted s
            then effect (S (generation s)) (cleanup (snd (dispatch refetch s)))
            else s)
  | DepsChange =>
      Some (if mounted s then effect (S (generation s)) (cleanup s) else s)
  | SetData v => Some (snd (dispatch (setData (λ _, v)) s))
  | RefetchIndex index =>
      Some (mkSys (hook s) (mounted s) (generation s) (cycles s)
                  (<[nextTargeted s := index]> (targeted s)) (S (nextTargeted s)))
  | Settle (Bulk g index) o =>
      c ← cycles s !! g;
      aborted ← controllers c !! index;
      guard (settled c !! index = Some None);;
      guard (admissible aborted o = true);;
      let (r, s') := dispatch (request index o) s in
      let c' := mkCycle (controllers c) (<[index := Some r]> (settled c)) in
      Some (await_all g (with_cycles (<[g := c']> (cycles s')) s'))
  | Settle (Targeted k) o =>
      index ← targeted s !! k;
      guard (admissible false o = true);;
      let s' := snd (dispatch (refetchIndex_settle index o) s) in
      Some (mkSys (hook s') (mounted s') (generation s') (cycles s')
                  (delete k (targeted s')) (nextTargeted s'))
  | Unmount =>
      Some (if mounted s
            then let s' := cleanup s in
                 mkSys (hook s') false (generation s') (cycles s') (targeted s')
                       (nextTargeted s')
            else s)
  end%stdpp.

Fixpoint run (evs : list Event) (s : Sys) : option Sys :=
  match evs with
  | [] => Some s
  | ev :: evs' => s' ← step ev s; run evs' s'
  end.

(** The states the hook can be in. *)
Definition reachable (s : Sys) : Prop := ∃ evs, run evs mount = Some s.

(** The events in which the requests of run [g] settle, each slot with
    its outcome, in the order of the list. *)
Definition settles (g : nat) (ios : list (nat * Settled AxiosResponse)) : list Event :=
  (λ io, Settle (Bulk g io.1) io.2) <$> ios.

End Hook.

(** What the second effect makes of [loadingIndex], as a function of
    [data]. *)
Fixpoint loading_flags_from (i : nat) (d : JsArray JsVal) (flags : JsArray bool)
  : JsArray bool :=
  match d with
  | [] => flags
  | c :: d' =>
      loading_flags_from (S i) d' (if truthy_cell c then js_set i false flags else flags)
  end.

(** Every slot whose data is truthy is marked as loaded. *)
Definition flags_follow (h : HookState) : Prop :=
  ∀ j, truthy_cell (js_get (data h) j) = true → js_get (loadingIndex h) j = Some false.

(** The committed state after the request of a slot settled, written
    with updates of that slot alone. *)
Definition settle_slot (io : nat * Settled AxiosResponse) (h : HookState) : HookState :=
  match io.2 with
  | Fulfilled res =>
      mkHook (js_set io.1 (res_data res) (data h)) (errors h) (error h)
             (js_set io.1 res (responses h))
             (if truthy (res_data res) then js_set io.1 false (loadingIndex h)
              else loadingIndex h)
             (retries h)
  | Rejected e =>
      mkHook (data h) (js_set io.1 (JStr (or_default (err_message e))) (errors h)) (error h)
             (responses h) (loadingIndex h) (retries h)
  end.

(** The ways in which an event changes the committed state: not at all,
    [retries] incremented, [data] and [responses] given new values (and
    the second effect run), or [errors] given a new value. *)
Inductive hook_change (h : HookState) : HookState → Prop :=
  | change_none : hook_change h h
  | change_retries :
      hook_change h (mkHook (data h) (errors h) (error h) (responses h) (loadingIndex h)
                            (retries h + 1))
  | change_data d rs :
      hook_change h (mkHook d (errors h) (error h) rs
                            (loading_flags_from 0 d (loadingIndex h)) (retries h))
  | change_errors es :
      hook_change h (mkHook (data h) es (error h) (responses h) (loadingIndex h)
                            (retries h)).

(** The state in which run [g], in flight in [s0], ends when its requests
    settle with the outcomes [os], computed slot by slot in the order of the
    urls. *)
Definition cycle_end (s0 : Sys) (g : nat) (os : list (Settled AxiosResponse)) : Sys :=
  mkSys (foldl (λ h io, settle_slot io h) (hook s0) (imap pair os)) true
        (generation s0) (delete g (cycles s0)) (targeted s0) (nextTargeted s0).

Definition is_fulfilled {A} (o : Settled A) : bool :=
  match o with Fulfilled _ => true | Rejected _ => false end.

Definition is_rejected {A} (o : Settled A) : bool := negb (is_fulfilled o).

End UseFetchMultiple.

(** ** The form hook: [useForm] *)

Module UseForm.
Local Open Scope handler_scope.

(** The three [useState] cells. The form data and the errors are objects
    used as maps from field names to values. *)
Record HookState : Type := mkHook {
  data : gmap string JsVal;
  errors : gmap string JsVal;
  valid : bool
}.

Definition setData (f : gmap string JsVal → gmap string JsVal) : Handler HookState unit :=
  modify (λ h, mkHook (f (data h)) (errors h) (valid h)).
Definition setErrors (v : gmap string JsVal) : Handler HookState unit :=
  modify (λ h, mkHook (data h) v (valid h)).
Definition setValid (b : bool) : Handler HookState unit :=
  modify (λ h, mkHook (data h) (errors h) b).

(** [handleChange]: [setData(prev => ({...prev, [e.target.name]: e.target.value}))],
    the value of an input being a string. *)
Definition handleChange (name value : string) : Handler HookState unit :=
  setData (λ prev, <[name := JStr value]> prev).

(** [errorsMap.set(path, message)] on a [Map], kept in insertion order: the
    value of a key that is present is replaced in place, a new key goes to
    the end. *)
Fixpoint map_set (path message : string) (m : list (string * string))
  : list (string * string) :=
  match m with
  | [] => [(path, message)]
  | (k, v) :: m' =>
      if decide (k = path) then (k, message) :: m'
      else (k, v) :: map_set path message m'
  end.

(** [Object.fromEntries(entries)]: the properties are assigned in the
    order of the entries. *)
Definition fromEntries (entries : list (string * string)) : gmap string JsVal :=
  foldl (λ o e, <[e.1 := JStr e.2]> o) ∅ entries.

(** The [catch] block of [validate] for a [ValidationError] of yup, whose
    [inner] errors each have the path of a field and a message. *)
Definition errors_of (inner : list (string * string)) : gmap string JsVal :=
  fromEntries (foldl (λ errorsMap err, map_set err.1 err.2 errorsMap) [] inner).

(** How [validationSchema.validate(data, { abortEarly: false })] settles. *)
Inductive Validation : Type :=
  | Passes
  | Fails (inner : list (string * string)).

Section Hook.
(** The arguments of the hook: the initial form data, and whether a
    schema was passed. *)
Variable payload : gmap string JsVal.
Variable hasSchema : bool.

Definition initial : HookState := mkHook payload payload false.

(** [validate] up to the [await]. *)
Definition validate_start : Handler HookState unit :=
  setValid false ;; setErrors payload.

(** [validate] from the moment the validation settles. *)
Definition validate_settle (r : Validation) : Handler HookState unit :=
  match r with
  | Passes => setValid true
  | Fails inner => setErrors (errors_of inner)
  end.

(** [clearErrors] *)
Definition clearErrors : Handler HookState unit := setErrors payload.

(** The hook and the validations of yup that have not settled yet. *)
Record Sys : Type := mkSys {
  hook : HookState;
  pending : nat
}.

Inductive Event : Type :=
  | Change (name value : string)
  | SetData (v : gmap string JsVal)
  | SetErrors (v : gmap string JsVal)
  | ClearErrors
  | Validate
  | Settle (r : Validation).

(** One event. Without a schema [validationSchema?.validate(...)] is
    [undefined] and [validate] goes on to [setValid(true)] at once. *)
Definition step (ev : Event) (s : Sys) : option Sys :=
  match ev with
  | Change name value => Some (mkSys (snd (handleChange name value (hook s))) (pending s))
  | SetData v => Some (mkSys (snd (setData (λ _, v) (hook s))) (pending s))
  | SetErrors v => Some (mkSys (snd (setErrors v (hook s))) (pending s))
  | ClearErrors => Some (mkSys (snd (clearErrors (hook s))) (pending s))
  | Validate =>
      if hasSchema
      then Some (mkSys (snd (validate_start (hook s))) (S (pending s)))
      else Some (mkSys (snd ((validate_start ;; validate_settle Passes) (hook s)))
                       (pending s))
  | Settle r =>
      match pending s with
      | 0 => None
      | S n => Some (mkSys (snd (validate_settle r (hook s))) n)
      end
  end.

Fixpoint run (evs : list Event) (s : Sys) : option Sys :=
  match evs with
  | [] => Some s
  | ev :: evs' => s' ← step ev s; run evs' s'
  end%stdpp.

Definition mount : Sys := mkSys initial 0.
End Hook.

(** The last value that [handleChange] gave to the field [name] among the
    events [evs], if any: the later events are looked at first. *)
Fixpoint last_change (name : string) (evs : list Event) : option string :=
  match evs with
  | [] => None
  | ev :: evs' =>
      match last_change name evs' with
      | Some v => Some v
      | None =>
          match ev with
          | Change n v => if decide (n = name) then Some v else None
          | _ => None
          end
      end
  end.

(** The message of the last error of [inner] for [path], if any. *)
Fixpoint last_message (path : string) (inner : list (string * string)) : option string :=
  match inner with
  | [] => None
  | err :: inner' =>
      match last_message path inner' with
      | Some m => Some m
      | None => if decide (err.1 = path) then Some err.2 else None
      end
  end.

Definition is_setData (ev : Event) : bool :=
  match ev with SetData _ => true | _ => false end.

Definition is_change (ev : Event) : bool :=
  match ev with Change _ _ => true | _ => false end.

End UseForm.

(** ** The query-string hook: [useQueryString] *)

Module UseQueryString.

(** The list of name-value pairs of a [URLSearchParams]. Its string form
    is the serialization of this list, and
    [new URLSearchParams(searchParams.toString())] parses it back to the
    same list. *)
Abbreviation Params := (list (string * string)).

(** [params.get(name)]: the value of the first pair with that name. *)
Definition usp_get (name : string) (p : Params) : option string :=
  snd <$> head (filter (λ kv, kv.1 = name) p).

(** [params.delete(name)]: every pair with that name goes. *)
Definition usp_delete (name : string) (p : Params) : Params :=
  filter (λ kv, kv.1 ≠ name) p.

(** [params.set(name, value)]: the first pair with that name takes the
    value and the others go; without such a pair, one is appended. *)
Fixpoint usp_set (name value : string) (p : Params) : Params :=
  match p with
  | [] => [(name, value)]
  | (k, v) :: p' =>
      if decide (k = name) then (k, value) :: usp_delete name p'
      else (k, v) :: usp_set name value p'
  end.

(** What [createQueryString] returns: the string [params.toString()], given
    by the pairs it serializes, or the [URLSearchParams] object itself. *)
Inductive Result : Type :=
  | AsString (serialized : Params)
  | AsParams (params : Params).

Section Hook.
(** The value of an entry of the object form, and
    [JSON.stringify] on it (as [set] converts it to a string). *)
Variable V : Type.
Variable stringify : V → string.

(** The first argument of [createQueryString]: a key, with the optional
    second argument, or an object, by its own keys in the order of
    [Object.keys]. *)
Inductive Entry : Type :=
  | Key (name : string) (value : option string)
  | Fields (fields : list (string * V)).

(** The test [if (value)] on an optional string. *)
Definition truthy_string (value : option string) : bool :=
  match value with
  | Some v => negb (String.eqb v "")
  | None => false
  end.

Definition createQueryString (searchParams : Params) (entry : Entry) : Result :=
  let params := searchParams in
  match entry with
  | Key name value =>
      match value with
      | Some v =>
          if truthy_string value then AsString (usp_set name v params)
          else AsParams params
      | None => AsParams params
      end
  | Fields fields =>
      AsString (foldl (λ ps kv, usp_set kv.1 (stringify kv.2) ps) params fields)
  end.

Definition getQueryString (searchParams : Params) (name : string) : option string :=
  usp_get name searchParams.

Definition removeQueryString (searchParams : Params) (names : list string) : Params :=
  foldl (λ ps name, usp_delete name ps) searchParams names.
End Hook.

(** All the pairs with that name, in order. *)
Definition usp_getAll (name : string) (p : Params) : list string :=
  snd <$> filter (λ kv, kv.1 = name) p.

End UseQueryString.

(** ** Notions for the further properties of the fetch hooks *)

(** In [useFetch]: no request succeeds and none is cancelled; the ones
    that settle fail with an error of their own. *)
Definition genuine_failure (ev : UseFetch.Event) : Prop :=
  match ev with
  | UseFetch.Settle _ (Fulfilled _) => False
  | UseFetch.Settle _ (Rejected e) => isCancel e = false
  | _ => True
  end.

(** In [useFetchMultiple]: the event is not a call of [setData]. *)
Definition not_setData (ev : UseFetchMultiple.Event) : Prop :=
  match ev with
  | UseFetchMultiple.SetData _ => False
  | _ => True
  end.

(** In [useFetchMultiple]: the event is neither a call of [setData] nor
    one of [refetchIndex]. *)
Definition bulk_only (ev : UseFetchMultiple.Event) : Prop :=
  match ev with
  | UseFetchMultiple.SetData _ | UseFetchMultiple.RefetchIndex _ => False
  | _ => True
  end.

(** In [useFetchMultiple]: the event is not the failure of a request of
    [refetchIndex]. *)
Definition not_targeted_failure (ev : UseFetchMultiple.Event) : Prop :=
  match ev with
  | UseFetchMultiple.Settle (UseFetchMultiple.Targeted _) (Rejected _) => False
  | _ => True
  end.

(** * Properties *)

(** ** Truthiness *)

(** The values that pass [if (d)] are the defined ones other than
    [null], [false], [0] and the empty string. *)
Lemma truthy_spec v :
  truthy v = true ↔ v ≠ JNull ∧ v ≠ JBool false ∧ v ≠ JNum 0 ∧ v ≠ JStr "".
Proof.
  destruct v as [|[]|z|m|r]; simpl; try (split; [by intros _|done]).
  - split; [done|]. by intros (? & _).
  - split; [done|]. by intros (_ & ? & _).
  - destruct (Z.eqb_spec z 0) as [->|Hz]; simpl.
    + split; [done|]. by intros (_ & _ & ? & _).
    + split; [|done]. intros _. split_and!; try done. by intros [= ->].
  - destruct (String.eqb_spec m "") as [->|Hm]; simpl.
    + split; [done|]. by intros (_ & _ & _ & ?).
    + split; [|done]. intros _. split_and!; try done. by intros [= ->].
Qed.


(** ** JavaScript arrays *)

Section JsArrayFacts.
Context {A : Type}.
Implicit Types (arr : JsArray A) (i j : nat) (v w : A).

Lemma js_get_lookup arr i v :
  js_get arr i = Some v ↔ arr !! i = Some (Some v).
Proof.
  unfold js_get. destruct (arr !! i) as [[x|]|]; simpl; split; congruence.
Qed.

Lemma js_set_length i v arr : length (js_set i v arr) = length arr `max` S i.
Proof.
  unfold js_set. case_decide.
  - rewrite length_insert. lia.
  - rewrite !length_app, length_replicate. simpl. lia.
Qed.

Lemma js_set_lookup_eq i v arr : js_set i v arr !! i = Some (Some v).
Proof.
  unfold js_set. case_decide.
  - by apply list_lookup_insert_eq.
  - rewrite lookup_app_r by lia.
    rewrite lookup_app_r by (rewrite length_replicate; lia).
    rewrite length_replicate. by replace (i - length arr - (i - length arr)) with 0 by lia.
Qed.

Lemma js_get_set_eq i v arr : js_get (js_set i v arr) i = Some v.
Proof. apply js_get_lookup, js_set_lookup_eq. Qed.

Lemma js_get_set_ne i j v arr : i ≠ j → js_get (js_set i v arr) j = js_get arr j.
Proof.
  intros Hne. unfold js_get, js_set. case_decide.
  - by rewrite list_lookup_insert_ne.
  - destruct (decide (j < length arr)) as [Hj|Hj].
    + by rewrite lookup_app_l.
    + rewrite (lookup_ge_None_2 arr j) by lia. rewrite lookup_app_r by lia.
      destruct (decide (j < i)) as [Hji|Hji].
      * rewrite lookup_app_l by (rewrite length_replicate; lia).
        rewrite lookup_replicate_2 by lia. done.
      * rewrite lookup_ge_None_2; [done|].
        rewrite length_app, length_replicate. simpl. lia.
Qed.

Lemma js_get_set i j v arr :
  js_get (js_set i v arr) j = if decide (i = j) then Some v else js_get arr j.
Proof.
  case_decide as Hij; [subst; apply js_get_set_eq | by apply js_get_set_ne].
Qed.

(** Two arrays of the same length that read the same everywhere are the
    same array. *)
Lemma js_array_eq arr1 arr2 :
  length arr1 = length arr2 → (∀ i, js_get arr1 i = js_get arr2 i) → arr1 = arr2.
Proof.
  intros Hlen Hget. apply list_eq. intros i.
  destruct (decide (i < length arr1)) as [Hi|Hi].
  - destruct (lookup_lt_is_Some_2 arr1 i Hi) as [x Hx].
    destruct (lookup_lt_is_Some_2 arr2 i ltac:(lia)) as [y Hy].
    specialize (Hget i). unfold js_get in Hget. rewrite Hx, Hy in *. simpl in Hget.
    by subst.
  - rewrite !lookup_ge_None_2; [done|lia..].
Qed.

Lemma js_set_id i v arr : js_get arr i = Some v → js_set i v arr = arr.
Proof.
  intros Hi%js_get_lookup. unfold js_set.
  rewrite decide_True by (by eapply lookup_lt_Some). by apply list_insert_id.
Qed.

Lemma js_set_comm i j v w arr :
  i ≠ j → js_set i v (js_set j w arr) = js_set j w (js_set i v arr).
Proof.
  intros Hne. apply js_array_eq.
  - rewrite !js_set_length. lia.
  - intros k. rewrite !js_get_set. repeat case_decide; congruence.
Qed.

Lemma js_set_set i v w arr : js_set i v (js_set i w arr) = js_set i v arr.
Proof.
  apply js_array_eq.
  - rewrite !js_set_length. lia.
  - intros k. rewrite !js_get_set. by case_decide.
Qed.

Lemma js_count_cons (c : option A) arr :
  js_count (c :: arr) = (if bool_decide (is_Some c) then 1 else 0) + js_count arr.
Proof.
  unfold js_count. rewrite filter_cons. case_bool_decide as Hc.
  - by rewrite decide_True.
  - by rewrite decide_False.
Qed.

Lemma js_get_cons_S (c : option A) arr i : js_get (c :: arr) (S i) = js_get arr i.
Proof. done. Qed.

(** Counting the defined cells against a list that says, position by
    position, which cells are defined. *)
Lemma js_count_filter {B} (P : B → bool) arr (os : list B) :
  (∀ i, is_Some (js_get arr i) ↔ ∃ o, os !! i = Some o ∧ P o = true) →
  js_count arr = length (filter (λ o, P o = true) os).
Proof.
  revert os. induction arr as [|c arr IH]; intros os H.
  - unfold js_count. simpl. symmetry. apply length_zero_iff_nil.
    induction os as [|o os IHos]; [done|].
    rewrite filter_cons. destruct (decide (P o = true)) as [Ho|Ho].
    + destruct (proj2 (H 0)) as [? [=]]. by exists o.
    + apply IHos. intros i. split; [by intros [? [=]]|].
      intros Hi. apply (H (S i)). done.
  - rewrite js_count_cons. destruct os as [|o os].
    + rewrite (IH []).
      * destruct c; [|done]. destruct (proj1 (H 0)) as (? & [=] & _). by eexists.
      * intros i. split; [|by intros (? & [=] & _)].
        intros Hi. destruct (proj1 (H (S i))) as (? & [=] & _). done.
    + rewrite filter_cons. rewrite (IH os).
      * destruct (decide (P o = true)) as [Ho|Ho].
        -- destruct c; [done|]. destruct (proj2 (H 0)) as [? [=]]. by exists o.
        -- destruct c; [|done]. destruct (proj1 (H 0)) as (? & [=] & ?); [by eexists|].
           by subst.
      * intros i. apply (H (S i)).
Qed.
End JsArrayFacts.

(** ** The second effect of [useFetchMultiple] *)

Section LoadingEffect.
Import UseFetchMultiple.

Lemma loading_effect_from_flags i d r :
  loading_effect_from i d r =
  (tt, mkRender (mkHook (data (cur r)) (errors (cur r)) (error (cur r)) (responses (cur r))
                        (loading_flags_from i d (loadingIndex (cur r))) (retries (cur r)))
                (dataChanged r)).
Proof.
  revert i r. induction d as [|c d IH]; intros i [[] ?]; [done|].
  simpl. unfold bind. destruct (truthy_cell c); simpl; by rewrite IH.
Qed.

Lemma commit_changed h :
  commit (mkRender h true) =
  mkHook (data h) (errors h) (error h) (responses h)
         (loading_flags_from 0 (data h) (loadingIndex h)) (retries h).
Proof. unfold commit, loading_effect. simpl. by rewrite loading_effect_from_flags. Qed.

Lemma loading_flags_from_get i d flags j :
  js_get (loading_flags_from i d flags) j =
  if bool_decide (i ≤ j) && truthy_cell (js_get d (j - i)) then Some false
  else js_get flags j.
Proof.
  revert i flags. induction d as [|c d IH]; intros i flags; simpl.
  - by rewrite andb_false_r.
  - rewrite IH. destruct (decide (i = j)) as [->|Hij].
    + rewrite bool_decide_eq_false_2 by lia. replace (j - j) with 0 by lia.
      rewrite bool_decide_eq_true_2 by lia. simpl.
      change (js_get (c :: d) 0) with c.
      destruct (truthy_cell c); [by rewrite js_get_set_eq|done].
    + case_bool_decide as H1; case_bool_decide as H2; try lia; simpl.
      * replace (j - i) with (S (j - S i)) by lia. rewrite js_get_cons_S.
        destruct (truthy_cell (js_get d _)); [done|].
        destruct (truthy_cell c); [by rewrite js_get_set_ne|done].
      * destruct (truthy_cell c); [by rewrite js_get_set_ne|done].
Qed.

Lemma loading_flags_from_id i d flags :
  (∀ j, truthy_cell (js_get d j) = true → js_get flags (i + j) = Some false) →
  loading_flags_from i d flags = flags.
Proof.
  revert i flags. induction d as [|c d IH]; intros i flags H; [done|].
  simpl. destruct (truthy_cell c) eqn:Hc.
  - rewrite js_set_id by (rewrite <-(Nat.add_0_r i); by apply H).
    apply IH. intros j Hj. replace (S i + j) with (i + S j) by lia. by apply H.
  - apply IH. intros j Hj. replace (S i + j) with (i + S j) by lia. by apply H.
Qed.

Lemma loading_flags_from_set i d k flags :
  loading_flags_from i d (js_set k false flags) =
  js_set k false (loading_flags_from i d flags).
Proof.
  revert i flags. induction d as [|c d IH]; intros i flags; [done|].
  simpl. destruct (truthy_cell c); [|done].
  destruct (decide (i = k)) as [->|Hik].
  - by rewrite js_set_set, !IH, js_set_set.
  - by rewrite js_set_comm, !IH by done.
Qed.

(** After a write of [v] at slot [i], the effect marks that slot when [v]
    is truthy and changes nothing else. *)
Lemma loading_flags_after_set h i v :
  flags_follow h →
  loading_flags_from 0 (js_set i v (data h)) (loadingIndex h) =
  if truthy v then js_set i false (loadingIndex h) else loadingIndex h.
Proof.
  intros Hinv. destruct (truthy v) eqn:Hv.
  - rewrite <-(js_set_id i false (loading_flags_from 0 _ (loadingIndex h))).
    + rewrite <-loading_flags_from_set. apply loading_flags_from_id.
      intros j Hj. simpl. rewrite js_get_set. rewrite js_get_set in Hj.
      case_decide; [done|]. by apply Hinv.
    + rewrite loading_flags_from_get, bool_decide_eq_true_2 by lia.
      rewrite Nat.sub_0_r, js_get_set_eq. simpl. by rewrite Hv.
  - apply loading_flags_from_id. intros j Hj. simpl.
    rewrite js_get_set in Hj. case_decide; [simpl in Hj; congruence|]. by apply Hinv.
Qed.

End LoadingEffect.

(** ** The handlers of [useFetchMultiple], render by render *)

Section Handlers.
Import UseFetchMultiple.

Lemma render_request_fulfilled i res h :
  render (request i (Fulfilled res)) h =
  (Fulfilled tt,
   mkHook (js_set i (res_data res) (data h)) (errors h) (error h)
          (js_set i res (responses h))
          (loading_flags_from 0 (js_set i (res_data res) (data h)) (loadingIndex h))
          (retries h)).
Proof. unfold render. simpl. by rewrite commit_changed. Qed.

Lemma render_request_rejected i e h :
  render (request i (Rejected e)) h =
  (Fulfilled tt,
   mkHook (data h) (js_set i (JStr (or_default (err_message e))) (errors h)) (error h)
          (responses h) (loadingIndex h) (retries h)).
Proof. done. Qed.

Lemma render_refetchIndex_fulfilled i res h :
  render (refetchIndex_settle i (Fulfilled res)) h =
  (Fulfilled tt,
   mkHook (js_set i (res_data res) (data h)) (errors h) (error h)
          (js_set i res (responses h))
          (loading_flags_from 0 (js_set i (res_data res) (data h)) (loadingIndex h))
          (retries h)).
Proof. unfold render. simpl. by rewrite commit_changed. Qed.

Lemma render_refetchIndex_rejected i e h :
  render (refetchIndex_settle i (Rejected e)) h =
  (Fulfilled tt,
   mkHook (data h) (js_set i (title_or_default (err_title e)) (errors h)) (error h)
          (responses h) (loadingIndex h) (retries h)).
Proof. done. Qed.

Lemma render_setData v h :
  render (setData (λ _, v)) h =
  (tt, mkHook v (errors h) (error h) (responses h)
              (loading_flags_from 0 v (loadingIndex h)) (retries h)).
Proof. unfold render. simpl. by rewrite commit_changed. Qed.

Lemma render_refetch h :
  render refetch h =
  (tt, mkHook (data h) (errors h) (error h) (responses h) (loadingIndex h) (retries h + 1)).
Proof. done. Qed.

(** [Promise.allSettled] is never rejected, so the [catch] block of
    [fetchData] is dead. *)
Lemma render_fetchData_resume rs h : render (fetchData_resume rs) h = (tt, h).
Proof. done. Qed.

(** The request promise of a slot is always fulfilled. *)
Lemma request_fulfils i o r : fst (request i o r) = Fulfilled tt.
Proof. by destruct o. Qed.

Lemma render_request_change i o h :
  fst (render (request i o) h) = Fulfilled tt ∧
  hook_change h (snd (render (request i o) h)).
Proof.
  destruct o.
  - rewrite render_request_fulfilled. split; [done|]. apply change_data.
  - rewrite render_request_rejected. split; [done|]. apply change_errors.
Qed.

Lemma render_refetchIndex_change i o h :
  hook_change h (snd (render (refetchIndex_settle i o) h)).
Proof.
  destruct o.
  - rewrite render_refetchIndex_fulfilled. apply change_data.
  - rewrite render_refetchIndex_rejected. apply change_errors.
Qed.

(** Under [flags_follow], the settling of a slot is an update of that
    slot alone. *)
Lemma render_request_slot i o h :
  flags_follow h → snd (render (request i o) h) = settle_slot (i, o) h.
Proof.
  intros Hinv. destruct o; [|done].
  rewrite render_request_fulfilled. unfold settle_slot. simpl.
  by rewrite loading_flags_after_set.
Qed.

Lemma hook_change_flags_follow h h' :
  hook_change h h' → flags_follow h → flags_follow h'.
Proof.
  intros [] Hinv; try done.
  intros j Hj. simpl in *.
  rewrite loading_flags_from_get, bool_decide_eq_true_2 by lia.
  by rewrite Nat.sub_0_r, Hj.
Qed.

Lemma hook_change_error h h' : hook_change h h' → error h' = error h.
Proof. by intros []. Qed.


End Handlers.

(** ** The steps of [useFetchMultiple] *)

Section Steps.
Import UseFetchMultiple.
Variable urls : list string.
Arguments render : simpl never.
Arguments effect : simpl never.
Arguments await_all : simpl never.

(** Waiting for the requests changes the React state in no case: when
    they have all settled the run is over, and that is all. *)
Lemma await_all_eq g s :
  await_all g s =
  with_cycles
    (match cycles s !! g with
     | Some c => if mapM id (settled c) is Some _ then delete g (cycles s) else cycles s
     | None => cycles s
     end) s.
Proof.
  unfold await_all. destruct s as [h m g' cy tg nt]; simpl.
  destruct (cy !! g) as [c|]; [|done].
  destruct (mapM id (settled c)); [|done].
  by destruct m.
Qed.

Lemma effect_eq g s :
  effect urls g s =
  mkSys (hook s) (mounted s) g
        (if urls is [] then delete g (cycles s) else <[g := fresh_cycle urls]> (cycles s))
        (targeted s) (nextTargeted s).
Proof.
  unfold effect. rewrite await_all_eq. unfold with_cycles. simpl.
  rewrite lookup_insert_eq. simpl. destruct urls; simpl.
  - by rewrite delete_insert_eq.
  - done.
Qed.

Lemma dispatch_eq {A} (m : Handler Render A) s :
  dispatch m s =
  (fst (render m (hook s)),
   if mounted s
   then mkSys (snd (render m (hook s))) (mounted s) (generation s) (cycles s)
              (targeted s) (nextTargeted s)
   else s).
Proof. unfold dispatch. by destruct (render m (hook s)). Qed.

Lemma step_hook_change ev s s' :
  step urls ev s = Some s' → hook_change (hook s) (hook s').
Proof.
  destruct ev as [| |v|i|[g' i|k] o|]; unfold step; intros Hstep.
  - apply (inj Some) in Hstep as <-. rewrite effect_eq, dispatch_eq, render_refetch.
    destruct (mounted s); simpl; [apply change_retries|apply change_none].
  - apply (inj Some) in Hstep as <-. rewrite effect_eq.
    destruct (mounted s); simpl; apply change_none.
  - apply (inj Some) in Hstep as <-. rewrite dispatch_eq, render_setData.
    destruct (mounted s); simpl; [apply change_data|apply change_none].
  - apply (inj Some) in Hstep as <-. apply change_none.
  - apply bind_Some in Hstep as (c & Hc & Hstep).
    apply bind_Some in Hstep as (aborted & Hab & Hstep).
    apply bind_Some in Hstep as (_ & _ & Hstep).
    apply bind_Some in Hstep as (_ & _ & Hstep).
    rewrite dispatch_eq in Hstep. apply (inj Some) in Hstep as <-.
    rewrite await_all_eq. simpl.
    destruct (mounted s); simpl; [apply render_request_change|apply change_none].
  - apply bind_Some in Hstep as (i & Hi & Hstep).
    apply bind_Some in Hstep as (_ & _ & Hstep).
    rewrite dispatch_eq in Hstep. apply (inj Some) in Hstep as <-. simpl.
    destruct (mounted s); simpl; [apply render_refetchIndex_change|apply change_none].
  - apply (inj Some) in Hstep as <-. destruct (mounted s); simpl; apply change_none.
Qed.

Lemma run_app evs1 evs2 s :
  run urls (evs1 ++ evs2) s = run urls evs1 s ≫= run urls evs2.
Proof.
  revert s. induction evs1 as [|ev evs1 IH]; intros s; simpl; [done|].
  destruct (step urls ev s); simpl; [apply IH|done].
Qed.

Lemma run_single ev s : run urls [ev] s = step urls ev s.
Proof. simpl. by destruct (step urls ev s). Qed.

Lemma run_snoc evs ev s s' :
  run urls (evs ++ [ev]) s = Some s' ↔
  ∃ s1, run urls evs s = Some s1 ∧ step urls ev s1 = Some s'.
Proof.
  rewrite run_app. destruct (run urls evs s) as [s1|]; cbn [mbind option_bind].
  - rewrite run_single. split; [by exists s1|].
    intros (s2 & Heq & Hstep). by simplify_eq.
  - split; [done|]. by intros (s2 & ? & _).
Qed.

Lemma mount_eq :
  mount urls =
  mkSys (initial urls) true 0
        (if urls is [] then ∅ else {[0 := fresh_cycle urls]}) ∅ 0.
Proof.
  unfold mount. rewrite effect_eq. simpl. destruct urls; [|done].
  by rewrite delete_empty.
Qed.

Lemma flags_follow_initial : flags_follow (initial urls).
Proof. intros j Hj. by destruct j. Qed.

(** The invariants of the reachable states. *)
Lemma run_flags_follow evs s :
  run urls evs (mount urls) = Some s → flags_follow (hook s).
Proof.
  revert s. induction evs as [|ev evs IH] using rev_ind; intros s.
  - intros [= <-]. rewrite mount_eq. apply flags_follow_initial.
  - intros (s1 & Hrun & Hstep)%run_snoc.
    eapply hook_change_flags_follow; [by eapply step_hook_change|by apply IH].
Qed.

Lemma reachable_flags_follow s : reachable urls s → flags_follow (hook s).
Proof. intros [evs Hrun]. by eapply run_flags_follow. Qed.

End Steps.

(** ** The claims about [useFetchMultiple] alone *)

Section MultiClaims.
Import UseFetchMultiple.
Variable urls : list string.

Lemma run_error_empty evs s :
  run urls evs (mount urls) = Some s → error (hook s) = "".
Proof.
  revert s. induction evs as [|ev evs IH] using rev_ind; intros s.
  - intros [= <-]. by rewrite mount_eq.
  - intros (s1 & Hrun & Hstep)%run_snoc.
    erewrite hook_change_error by (by eapply step_hook_change). by apply IH.
Qed.

(** C10. In [useFetchMultiple] the aggregate [error] is the empty string in
    every state the hook reaches: the request promise of a slot is always
    fulfilled, because its own [catch] handles the rejection, and when
    [Promise.allSettled] resumes [fetchData] the [catch] block, the one place
    that calls [setError], does not run. *)
Theorem C10_aggregate_error_stays_empty evs s :
  run urls evs (mount urls) = Some s →
  error (hook s) = "" ∧
  (∀ index o r, fst (request index o r) = Fulfilled tt) ∧
  (∀ rs : list (Settled unit), allSettled rs = Fulfilled rs) ∧
  (∀ rs, render (fetchData_resume rs) (hook s) = (tt, hook s)).
Proof.
  intros Hrun. split; [by eapply run_error_empty|]. split_and!.
  - apply request_fulfils.
  - done.
  - intros rs. apply render_fetchData_resume.
Qed.




End MultiClaims.

(** ** A bulk cycle of [useFetchMultiple] *)

Section BulkCycle.
Import UseFetchMultiple.
Variable urls : list string.
Arguments render : simpl never.
Arguments effect : simpl never.
Arguments await_all : simpl never.

Implicit Types (ios : list (nat * Settled AxiosResponse)) (h : HookState).

(** One request of a run that was not aborted settles. *)
Lemma step_settle_bulk s g c i o :
  mounted s = true → cycles s !! g = Some c →
  controllers c !! i = Some false → settled c !! i = Some None →
  admissible false o = true →
  let c' := mkCycle (controllers c) (<[i := Some (Fulfilled tt)]> (settled c)) in
  step urls (Settle (Bulk g i) o) s =
  Some (mkSys (snd (render (request i o) (hook s))) true (generation s)
              (if mapM id (settled c') is Some _ then delete g (cycles s)
               else <[g := c']> (cycles s))
              (targeted s) (nextTargeted s)).
Proof.
  intros Hm Hc Hab Hset Hadm c'. unfold step.
  rewrite Hc. cbn [mbind option_bind]. rewrite Hab. cbn [mbind option_bind].
  rewrite option_guard_True by done. rewrite option_guard_True by done.
  rewrite dispatch_eq, Hm. destruct (render_request_change i o (hook s)) as [-> _].
  rewrite await_all_eq. unfold with_cycles. cbn [cycles hook mounted generation targeted
    nextTargeted]. rewrite lookup_insert_eq. fold c'.
  destruct (mapM id (settled c')); [|done].
  by rewrite delete_insert_eq.
Qed.

(** All the requests that a run still waits for settle, in the order of
    [ios]: the run is over and the React state is the one that the
    handlers leave, one after the other. *)
Lemma run_settles ios s g c :
  mounted s = true → cycles s !! g = Some c →
  NoDup ios.*1 → ios ≠ [] →
  (∀ j, j ∈ ios.*1 ↔ settled c !! j = Some None) →
  (∀ io, io ∈ ios → controllers c !! io.1 = Some false ∧ admissible false io.2 = true) →
  run urls (settles g ios) s =
  Some (mkSys (foldl (λ h io, snd (render (request io.1 io.2) h)) (hook s) ios) true
              (generation s) (delete g (cycles s)) (targeted s) (nextTargeted s)).
Proof.
  revert s c. induction ios as [|[i o] ios IH]; intros s c Hm Hc Hnd Hne Hpend Hok; [done|].
  apply NoDup_cons in Hnd as [Hi Hnd].
  destruct (Hok (i, o)) as [Hab Hadm]; [left|]. simpl in Hab, Hadm.
  assert (settled c !! i = Some None) as Hset by (apply Hpend; left).
  cbn [settles fmap list_fmap run fst snd].
  rewrite (step_settle_bulk s g c i o) by done. cbn [mbind option_bind].
  set (c' := mkCycle (controllers c) (<[i:=Some (Fulfilled tt)]> (settled c))).
  assert (∀ j, j ∈ ios.*1 ↔ settled c' !! j = Some None) as Hpend'.
  { intros j. simpl. destruct (decide (j = i)) as [->|Hji].
    - rewrite list_lookup_insert_eq by (by eapply lookup_lt_Some). split; [done|by intros [=]].
    - rewrite list_lookup_insert_ne by done. rewrite <-Hpend. simpl.
      rewrite elem_of_cons. split; [by intros ?; right|]. by intros [?|?]. }
  destruct ios as [|io2 ios].
  - destruct (mapM id (settled c')) eqn:Hall; [done|].
    apply mapM_None in Hall. apply Exists_exists in Hall as ([x|] & Hin & Hx); [done|].
    apply list_elem_of_lookup in Hin as [j Hj]. apply Hpend' in Hj. by apply elem_of_nil in Hj.
  - destruct (mapM id (settled c')) eqn:Hall.
    { assert (is_Some (mapM id (settled c'))) as Hs by eauto.
      apply mapM_is_Some in Hs. assert (settled c' !! io2.1 = Some None) as Hj.
      { apply Hpend'. left. }
      eapply Forall_lookup_1 in Hs; [|exact Hj]. by destruct Hs. }
    fold (settles g (io2 :: ios)).
    erewrite IH; [| |by apply lookup_insert_eq|..]; try done.
    + cbn [hook generation cycles targeted nextTargeted]. by rewrite delete_insert_eq.
    + intros io Hio. apply (Hok io). by right.
Qed.

Lemma fold_request_settle_slot ios h :
  flags_follow h →
  foldl (λ h io, snd (render (request io.1 io.2) h)) h ios =
  foldl (λ h io, settle_slot io h) h ios.
Proof.
  revert h. induction ios as [|[i o] ios IH]; intros h Hinv; [done|].
  simpl. rewrite render_request_slot by done. apply IH.
  rewrite <-render_request_slot by done.
  eapply hook_change_flags_follow; [apply render_request_change|done].
Qed.

Lemma settle_slot_comm io1 io2 h :
  io1.1 ≠ io2.1 →
  settle_slot io1 (settle_slot io2 h) = settle_slot io2 (settle_slot io1 h).
Proof.
  destruct io1 as [i1 [r1|e1]], io2 as [i2 [r2|e2]]; unfold settle_slot; simpl; intros Hne.
  - f_equal; [by apply js_set_comm..|].
    destruct (truthy (res_data r1)), (truthy (res_data r2)); try done. by apply js_set_comm.
  - done.
  - done.
  - f_equal. by apply js_set_comm.
Qed.

(** The order in which the slots settle does not matter. *)
Lemma fold_settle_slot_perm ios1 ios2 h :
  NoDup ios1.*1 → ios1 ≡ₚ ios2 →
  foldl (λ h io, settle_slot io h) h ios1 = foldl (λ h io, settle_slot io h) h ios2.
Proof.
  intros Hnd Hperm. revert h Hnd.
  induction Hperm as [|x l1 l2 _ IH|x y l|l1 l2 l3 H12 IH1 _ IH2]; intros h Hnd.
  - done.
  - simpl. apply IH. by apply NoDup_cons in Hnd as [_ ?].
  - simpl. f_equal. apply settle_slot_comm.
    rewrite !fmap_cons in Hnd. apply NoDup_cons in Hnd as [Hy _].
    rewrite elem_of_cons in Hy. naive_solver.
  - rewrite IH1 by done. apply IH2. by rewrite <-H12.
Qed.

(** A slot that does not settle keeps what it holds. *)
Lemma fold_settle_slot_frame ios h i :
  i ∉ ios.*1 →
  let h' := foldl (λ h io, settle_slot io h) h ios in
  js_get (data h') i = js_get (data h) i ∧
  js_get (errors h') i = js_get (errors h) i ∧
  js_get (responses h') i = js_get (responses h) i.
Proof.
  revert h. induction ios as [|[k o] ios IH]; intros h Hi; [done|].
  rewrite fmap_cons, not_elem_of_cons in Hi. destruct Hi as [Hik Hi]. simpl in Hik.
  simpl. destruct (IH (settle_slot (k, o) h) Hi) as (-> & -> & ->).
  destruct o; unfold settle_slot; simpl; by rewrite ?js_get_set_ne.
Qed.

(** A slot that settles holds the outcome of its request. *)
Lemma fold_settle_slot_at ios h i o :
  NoDup ios.*1 → (i, o) ∈ ios →
  let h' := foldl (λ h io, settle_slot io h) h ios in
  match o with
  | Fulfilled res =>
      js_get (data h') i = Some (res_data res) ∧
      js_get (responses h') i = Some res ∧
      js_get (errors h') i = js_get (errors h) i
  | Rejected e =>
      js_get (errors h') i = Some (JStr (or_default (err_message e))) ∧
      js_get (data h') i = js_get (data h) i ∧
      js_get (responses h') i = js_get (responses h) i
  end.
Proof.
  intros Hnd Hin. apply elem_of_Permutation in Hin as [k Hperm].
  cbn zeta. rewrite (fold_settle_slot_perm ios ((i, o) :: k) h Hnd Hperm).
  rewrite Hperm in Hnd. rewrite fmap_cons in Hnd. apply NoDup_cons in Hnd as [Hi _].
  simpl in Hi. simpl.
  destruct (fold_settle_slot_frame k (settle_slot (i, o) h) i Hi) as (-> & -> & ->).
  destruct o; unfold settle_slot; simpl; by rewrite ?js_get_set_eq.
Qed.

Lemma or_default_nonempty m : or_default m ≠ "".
Proof.
  destruct m as [s|]; simpl; [|done].
  destruct (String.eqb_spec s ""); done.
Qed.

Lemma imap_pair_fst {B} (os : list B) n :
  (imap (λ i o, (n + i, o)) os).*1 = seq n (length os).
Proof.
  revert n. induction os as [|o os IH]; intros n; [done|].
  rewrite imap_cons. simpl. rewrite Nat.add_0_r. f_equal.
  rewrite <-IH. f_equal. apply imap_ext. intros i x _. simpl. f_equal. lia.
Qed.

Lemma elem_of_imap_pair {B} (os : list B) i o :
  (i, o) ∈ imap pair os ↔ os !! i = Some o.
Proof.
  rewrite list_elem_of_lookup. split.
  - intros [j Hj]. rewrite list_lookup_imap in Hj.
    destruct (os !! j) eqn:Hoj; simpl in Hj; [|done]. by simplify_eq.
  - intros Hi. exists i. by rewrite list_lookup_imap, Hi.
Qed.
End BulkCycle.

Section Cycle.
Import UseFetchMultiple.
Variable urls : list string.
Variable s0 : Sys.
Variable g : nat.
Variable os : list (Settled AxiosResponse).
Hypothesis s0_reachable : reachable urls s0.
Hypothesis s0_mounted : mounted s0 = true.
Hypothesis s0_cycle : cycles s0 !! g = Some (fresh_cycle urls).
Hypothesis urls_nonempty : urls ≠ [].
Hypothesis os_length : length os = length urls.
Hypothesis os_admissible : Forall (λ o, admissible false o = true) os.

Implicit Types (ios : list (nat * Settled AxiosResponse)).

Lemma imap_pair_indices : (imap pair os).*1 = seq 0 (length os).
Proof. apply (imap_pair_fst os 0). Qed.

Lemma run_cycle ios :
  ios ≡ₚ imap pair os →
  run urls (settles g ios) s0 = Some (cycle_end s0 g os).
Proof.
  intros Hperm. unfold cycle_end.
  assert (ios.*1 ≡ₚ seq 0 (length os)) as Hidx by (by rewrite Hperm, imap_pair_indices).
  assert (NoDup ios.*1) as Hnd by (rewrite Hidx; apply NoDup_seq).
  rewrite <-(fold_settle_slot_perm ios _ _ Hnd Hperm).
  rewrite <-fold_request_settle_slot by (by apply (reachable_flags_follow urls)).
  apply (run_settles urls ios s0 g (fresh_cycle urls)); try done.
  - intros ->. apply Permutation_nil_l in Hperm.
    destruct os; [|done]. by destruct urls.
  - intros j. rewrite Hidx, elem_of_seq. simpl. rewrite list_lookup_fmap. split.
    + intros [_ Hj]. rewrite os_length in Hj.
      by destruct (lookup_lt_is_Some_2 urls j Hj) as [x ->].
    + intros Hj. destruct (urls !! j) eqn:Hu; [|done].
      apply lookup_lt_Some in Hu. lia.
  - intros [i o] Hio. rewrite Hperm in Hio. apply elem_of_imap_pair in Hio. simpl. split.
    + rewrite list_lookup_fmap. apply lookup_lt_Some in Hio. rewrite os_length in Hio.
      by destruct (lookup_lt_is_Some_2 urls i Hio) as [x ->].
    + eapply Forall_lookup_1 in os_admissible; [|exact Hio]. done.
Qed.

Lemma cycle_end_slot i o :
  os !! i = Some o →
  let h := hook (cycle_end s0 g os) in
  match o with
  | Fulfilled res =>
      js_get (data h) i = Some (res_data res) ∧ js_get (responses h) i = Some res ∧
      js_get (errors h) i = js_get (errors (hook s0)) i
  | Rejected e =>
      js_get (errors h) i = Some (JStr (or_default (err_message e))) ∧
      js_get (data h) i = js_get (data (hook s0)) i ∧
      js_get (responses h) i = js_get (responses (hook s0)) i
  end.
Proof using Type.
  intros Hi. cbn zeta.
  assert (NoDup (imap pair os).*1) as Hnd by (rewrite imap_pair_indices; apply NoDup_seq).
  assert ((i, o) ∈ imap pair os) as Hin by (by apply elem_of_imap_pair).
  exact (fold_settle_slot_at _ (hook s0) i o Hnd Hin).
Qed.

Lemma cycle_end_beyond i :
  os !! i = None →
  let h := hook (cycle_end s0 g os) in
  js_get (data h) i = js_get (data (hook s0)) i ∧
  js_get (errors h) i = js_get (errors (hook s0)) i ∧
  js_get (responses h) i = js_get (responses (hook s0)) i.
Proof using Type.
  intros Hi. cbn zeta.
  assert (i ∉ (imap pair os).*1) as Hni.
  { rewrite imap_pair_indices, elem_of_seq. apply lookup_ge_None in Hi.
    clear -Hi. lia. }
  exact (fold_settle_slot_frame _ (hook s0) i Hni).
Qed.

Lemma cycle_end_count_errors :
  (∀ i, js_get (errors (hook s0)) i = None) →
  js_count (errors (hook (cycle_end s0 g os))) =
  length (filter (λ o, is_rejected o = true) os).
Proof using Type.
  intros Hempty. apply js_count_filter. intros i. destruct (os !! i) as [o|] eqn:Hi.
  - pose proof (cycle_end_slot i o Hi) as H. cbn zeta in H.
    destruct o as [res|e]; [destruct H as (_ & _ & ->)|destruct H as (-> & _)].
    + rewrite Hempty. split; [by intros [??]|]. by intros (? & [= <-] & ?).
    + split; [by eauto|]. by eauto.
  - destruct (cycle_end_beyond i Hi) as (_ & -> & _). rewrite Hempty.
    split; [by intros [??]|]. by intros (? & [=] & _).
Qed.

Lemma cycle_end_count_data :
  (∀ i, js_get (data (hook s0)) i = None) →
  js_count (data (hook (cycle_end s0 g os))) =
  length (filter (λ o, is_fulfilled o = true) os).
Proof using Type.
  intros Hempty. apply js_count_filter. intros i. destruct (os !! i) as [o|] eqn:Hi.
  - pose proof (cycle_end_slot i o Hi) as H. cbn zeta in H.
    destruct o as [res|e]; [destruct H as (-> & _)|destruct H as (_ & -> & _)].
    + split; [by eauto|]. by eauto.
    + rewrite Hempty. split; [by intros [??]|]. by intros (? & [= <-] & ?).
  - destruct (cycle_end_beyond i Hi) as (-> & _). rewrite Hempty.
    split; [by intros [??]|]. by intros (? & [=] & _).
Qed.
End Cycle.

Section BulkCycleClaim.
Import UseFetchMultiple.

(** C4, amended. Take any bulk cycle over [N >= 1] requests, in flight in
    a reachable state with nothing settled yet, of which [k] fail without
    being cancelled and [N - k] succeed, and no other event in between.
    Whatever the order in which the requests settle, the hook ends in the
    same state. There, each slot that succeeded holds its payload in [data]
    and its response in [responses], each slot that failed holds its
    message, which is not empty, in [errors], and every other entry of
    [data], [errors] and [responses] is as it was before the cycle: the
    cycle clears nothing. So when [errors] had no entry before the cycle,
    as at mount, exactly [k] of its entries are defined afterwards, and
    when [data] had none, exactly [N - k] of its entries are. *)
Theorem C4_cycle_any_order urls s0 g os ios1 ios2 :
  reachable urls s0 →
  mounted s0 = true →
  cycles s0 !! g = Some (fresh_cycle urls) →
  urls ≠ [] →
  length os = length urls →
  Forall (λ o, admissible false o = true) os →
  ios1 ≡ₚ imap pair os →
  ios2 ≡ₚ imap pair os →
  ∃ s,
    run urls (settles g ios1) s0 = Some s ∧
    run urls (settles g ios2) s0 = Some s ∧
    cycles s = delete g (cycles s0) ∧
    (∀ i o, os !! i = Some o →
       match o with
       | Fulfilled res =>
           js_get (data (hook s)) i = Some (res_data res) ∧
           js_get (responses (hook s)) i = Some res ∧
           js_get (errors (hook s)) i = js_get (errors (hook s0)) i
       | Rejected e =>
           js_get (errors (hook s)) i = Some (JStr (or_default (err_message e))) ∧
           or_default (err_message e) ≠ "" ∧
           js_get (data (hook s)) i = js_get (data (hook s0)) i ∧
           js_get (responses (hook s)) i = js_get (responses (hook s0)) i
       end) ∧
    (∀ i, length urls ≤ i →
       js_get (data (hook s)) i = js_get (data (hook s0)) i ∧
       js_get (errors (hook s)) i = js_get (errors (hook s0)) i ∧
       js_get (responses (hook s)) i = js_get (responses (hook s0)) i) ∧
    ((∀ i, js_get (errors (hook s0)) i = None) →
     js_count (errors (hook s)) = length (filter (λ o, is_rejected o = true) os)) ∧
    ((∀ i, js_get (data (hook s0)) i = None) →
     js_count (data (hook s)) = length (filter (λ o, is_fulfilled o = true) os)).
Proof.
  intros Hreach Hm Hc Hne Hlen Hadm Hperm1 Hperm2. exists (cycle_end s0 g os).
  split; [by eapply run_cycle|]. split; [by eapply run_cycle|].
  split; [done|]. split_and!.
  - intros i o Hi. pose proof (cycle_end_slot s0 g os i o Hi) as H. cbn zeta in H.
    destruct o as [res|e]; [done|].
    destruct H as (? & ? & ?). split_and!; try done. apply or_default_nonempty.
  - intros i Hi. apply cycle_end_beyond. apply lookup_ge_None. lia.
  - by apply cycle_end_count_errors.
  - by apply cycle_end_count_data.
Qed.

(** The scenario of the specification: A and C succeed, B fails with
    "timeout"; once in the order C, B, A and once in the order A, B, C. *)
Lemma C4_cycle_any_order_witness :
  ∃ s,
    run ["A"; "B"; "C"]
        (settles 0 [(2, Fulfilled (okResponse 3)); (1, Rejected timeoutError);
                    (0, Fulfilled (okResponse 1))])
        (mount ["A"; "B"; "C"]) = Some s ∧
    run ["A"; "B"; "C"]
        (settles 0 [(0, Fulfilled (okResponse 1)); (1, Rejected timeoutError);
                    (2, Fulfilled (okResponse 3))])
        (mount ["A"; "B"; "C"]) = Some s ∧
    js_count (errors (hook s)) = 1 ∧ js_count (data (hook s)) = 2.
Proof.
  destruct (C4_cycle_any_order ["A"; "B"; "C"] (mount ["A"; "B"; "C"]) 0
              [Fulfilled (okResponse 1); Rejected timeoutError; Fulfilled (okResponse 3)]
              [(2, Fulfilled (okResponse 3)); (1, Rejected timeoutError);
               (0, Fulfilled (okResponse 1))]
              [(0, Fulfilled (okResponse 1)); (1, Rejected timeoutError);
               (2, Fulfilled (okResponse 3))])
    as (s & Hrun1 & Hrun2 & _ & _ & _ & Herrors & Hdata).
  - exists []. reflexivity.
  - reflexivity.
  - reflexivity.
  - discriminate.
  - reflexivity.
  - repeat constructor.
  - apply (bool_decide_unpack _). vm_compute. exact I.
  - reflexivity.
  - exists s. split; [exact Hrun1|]. split; [exact Hrun2|]. split.
    + apply Herrors. intros i. by destruct i.
    + apply Hdata. intros i. by destruct i.
Defined.

(** C4 as stated fails for a later cycle: the error of slot 0 from the
    first cycle is still there after a second cycle in which no request
    failed. *)
Lemma C4_counterexample_later_cycle :
  ∃ s0 s,
    run ["A"] [Settle (Bulk 0 0) (Rejected timeoutError); Refetch] (mount ["A"]) = Some s0 ∧
    cycles s0 !! 1 = Some (fresh_cycle ["A"]) ∧
    run ["A"] (settles 1 [(0, Fulfilled (okResponse 1))]) s0 = Some s ∧
    cycles s = ∅ ∧
    js_count (errors (hook s)) = 1 ∧
    length (filter (λ o, is_rejected o = true) [Fulfilled (okResponse 1)]) = 0.
Proof.
  eexists _, _. split; [vm_compute; reflexivity|]. split; [reflexivity|].
  split; [vm_compute; reflexivity|]. split; [|split]; reflexivity.
Qed.
End BulkCycleClaim.

(** ** The steps of [useFetch] *)

Section SingleSteps.
Import UseFetch.

Lemma single_dispatch_eq {A} (m : Handler HookState A) s :
  dispatch m s =
  if mounted s then mkSys (snd (m (hook s))) true (generation s) (controllers s) else s.
Proof. unfold dispatch. by destruct s as [h [] g' c]. Qed.

Lemma single_effect_eq g s :
  effect g s =
  mkSys (if mounted s
         then mkHook true (data (hook s)) "" (response (hook s)) (retries (hook s))
         else hook s)
        (mounted s) g (<[g := false]> (controllers s)).
Proof. unfold effect. rewrite single_dispatch_eq. by destruct s as [h [] g' c]. Qed.

Lemma single_step_refetch s :
  mounted s = true →
  step Refetch s =
  Some (mkSys (mkHook true (data (hook s)) "" (response (hook s)) (retries (hook s) + 1))
              true (S (generation s))
              (<[S (generation s) := false]>
                 (alter (λ _, true) (generation s) (controllers s)))).
Proof.
  intros Hm. unfold step. rewrite Hm, single_effect_eq, single_dispatch_eq, Hm. done.
Qed.

Lemma single_step_depsChange s :
  mounted s = true →
  step DepsChange s =
  Some (mkSys (mkHook true (data (hook s)) "" (response (hook s)) (retries (hook s)))
              true (S (generation s))
              (<[S (generation s) := false]>
                 (alter (λ _, true) (generation s) (controllers s)))).
Proof. intros Hm. unfold step. rewrite Hm, single_effect_eq. simpl. by rewrite Hm. Qed.

Lemma single_step_settle_inv g o s s' :
  step (Settle g o) s = Some s' →
  ∃ aborted,
    controllers s !! g = Some aborted ∧ admissible aborted o = true ∧
    s' = mkSys (if mounted s then snd (fetchData_settle o (hook s)) else hook s)
               (mounted s) (generation s) (delete g (controllers s)).
Proof.
  unfold step. intros Hstep.
  apply bind_Some in Hstep as (aborted & Hab & Hstep).
  apply bind_Some in Hstep as (Hadm & _ & Hstep).
  apply (inj Some) in Hstep as <-. exists aborted. split_and!; try done.
  rewrite single_dispatch_eq. by destruct s as [h [] g' c].
Qed.

Lemma single_fetchData_settle_retries o h :
  retries (snd (fetchData_settle o h)) = retries h.
Proof. destruct o as [res|[m [] t]]; done. Qed.

Lemma single_step_retries ev s s' :
  step ev s = Some s' →
  retries (hook s') =
  retries (hook s) + match ev with Refetch => if mounted s then 1 else 0 | _ => 0 end.
Proof.
  destruct ev as [| |v|g o|]; intros Hstep.
  - apply (inj Some) in Hstep as <-. destruct s as [h [] g c]; simpl; lia.
  - apply (inj Some) in Hstep as <-. destruct s as [h [] g c]; simpl; lia.
  - apply (inj Some) in Hstep as <-. destruct s as [h [] g c]; simpl; lia.
  - apply single_step_settle_inv in Hstep as (aborted & _ & _ & ->). simpl.
    destruct (mounted s); [rewrite single_fetchData_settle_retries|]; lia.
  - apply (inj Some) in Hstep as <-. destruct s as [h [] g c]; simpl; lia.
Qed.
End SingleSteps.

(** ** More on the steps of [useFetchMultiple] *)

Section MultiSteps.
Import UseFetchMultiple.
Variable urls : list string.
Arguments render : simpl never.
Arguments effect : simpl never.
Arguments await_all : simpl never.

Lemma step_settle_bulk_inv s g i o s' :
  step urls (Settle (Bulk g i) o) s = Some s' →
  ∃ c aborted,
    cycles s !! g = Some c ∧ controllers c !! i = Some aborted ∧
    settled c !! i = Some None ∧ admissible aborted o = true ∧
    hook s' = (if mounted s then snd (render (request i o) (hook s)) else hook s) ∧
    mounted s' = mounted s ∧ generation s' = generation s ∧
    targeted s' = targeted s ∧ nextTargeted s' = nextTargeted s.
Proof.
  unfold step. intros Hstep.
  apply bind_Some in Hstep as (c & Hc & Hstep).
  apply bind_Some in Hstep as (aborted & Hab & Hstep).
  apply bind_Some in Hstep as (Hset & _ & Hstep).
  apply bind_Some in Hstep as (Hadm & _ & Hstep).
  rewrite dispatch_eq in Hstep. apply (inj Some) in Hstep as <-.
  exists c, aborted. rewrite await_all_eq. simpl.
  split_and!; try done; by destruct s as [h [] g' cy tg nt].
Qed.

Lemma step_settle_targeted_inv s k o s' :
  step urls (Settle (Targeted k) o) s = Some s' →
  ∃ i,
    targeted s !! k = Some i ∧ admissible false o = true ∧
    s' = mkSys (if mounted s then snd (render (refetchIndex_settle i o) (hook s))
                else hook s)
               (mounted s) (generation s) (cycles s) (delete k (targeted s))
               (nextTargeted s).
Proof.
  unfold step. intros Hstep.
  apply bind_Some in Hstep as (i & Hi & Hstep).
  apply bind_Some in Hstep as (Hadm & _ & Hstep).
  rewrite dispatch_eq in Hstep. apply (inj Some) in Hstep as <-.
  exists i. split_and!; try done. by destruct s as [h [] g' cy tg nt].
Qed.

Lemma render_request_retries i o h :
  retries (snd (render (request i o) h)) = retries h.
Proof. destruct o; [by rewrite render_request_fulfilled|by rewrite render_request_rejected]. Qed.

Lemma render_refetchIndex_retries i o h :
  retries (snd (render (refetchIndex_settle i o) h)) = retries h.
Proof.
  destruct o; [by rewrite render_refetchIndex_fulfilled|by rewrite render_refetchIndex_rejected].
Qed.

Lemma multi_step_retries ev s s' :
  step urls ev s = Some s' →
  retries (hook s') =
  retries (hook s) + match ev with Refetch => if mounted s then 1 else 0 | _ => 0 end.
Proof.
  destruct ev as [| |v|i|[g i|k] o|]; intros Hstep.
  - apply (inj Some) in Hstep as <-. rewrite effect_eq, dispatch_eq.
    destruct (mounted s); simpl; lia.
  - apply (inj Some) in Hstep as <-. rewrite effect_eq.
    destruct (mounted s); simpl; lia.
  - apply (inj Some) in Hstep as <-. rewrite dispatch_eq, render_setData.
    destruct (mounted s); simpl; lia.
  - apply (inj Some) in Hstep as <-. simpl. lia.
  - apply step_settle_bulk_inv in Hstep as (c & ab & _ & _ & _ & _ & -> & _).
    destruct (mounted s); [rewrite render_request_retries|]; lia.
  - apply step_settle_targeted_inv in Hstep as (i & _ & _ & ->). simpl.
    destruct (mounted s); [rewrite render_refetchIndex_retries|]; lia.
  - apply (inj Some) in Hstep as <-. destruct (mounted s); simpl; lia.
Qed.
End MultiSteps.

(** ** The claims about the generation counter, [setData] and re-arming *)

Section SharedClaims.
Variable urls : list string.

(** C7. In both hooks [retries] only grows: a step of [refetch] (on a
    mounted component) adds exactly 1 to it, and no other event ([setData],
    [refetchIndex], a change of dependency, a request that settles,
    unmounting) changes it. *)
Theorem C7_retries_changed_by_refetch_only
    (ev1 : UseFetch.Event) (s1 s1' : UseFetch.Sys)
    (ev2 : UseFetchMultiple.Event) (s2 s2' : UseFetchMultiple.Sys) :
  UseFetch.step ev1 s1 = Some s1' →
  UseFetchMultiple.step urls ev2 s2 = Some s2' →
  (UseFetch.retries (UseFetch.hook s1') =
   UseFetch.retries (UseFetch.hook s1) +
   match ev1 with
   | UseFetch.Refetch => if UseFetch.mounted s1 then 1 else 0
   | _ => 0
   end) ∧
  (UseFetchMultiple.retries (UseFetchMultiple.hook s2') =
   UseFetchMultiple.retries (UseFetchMultiple.hook s2) +
   match ev2 with
   | UseFetchMultiple.Refetch => if UseFetchMultiple.mounted s2 then 1 else 0
   | _ => 0
   end) ∧
  UseFetch.retries (UseFetch.hook s1) ≤ UseFetch.retries (UseFetch.hook s1') ∧
  UseFetchMultiple.retries (UseFetchMultiple.hook s2) ≤
  UseFetchMultiple.retries (UseFetchMultiple.hook s2').
Proof.
  intros H1%single_step_retries H2%multi_step_retries. split_and!; [done|done|lia..].
Qed.

(** C9, amended. [setData(v)] makes [data] equal to [v] and starts or
    cancels no request; in [useFetch] it changes no other state; in
    [useFetchMultiple] it leaves [errors], [error], [responses] and
    [retries] as they are, and the effect on [data] then sets
    [loadingIndex[j]] to [false] for every [j] at which [v] is truthy. *)
Theorem C9_setData_effect
    (s1 : UseFetch.Sys) (v1 : option JsVal)
    (s2 : UseFetchMultiple.Sys) (v2 : JsArray JsVal) :
  UseFetch.mounted s1 = true →
  UseFetchMultiple.mounted s2 = true →
  (∃ s1', UseFetch.step (UseFetch.SetData v1) s1 = Some s1' ∧
     UseFetch.hook s1' =
       UseFetch.mkHook (UseFetch.isLoading (UseFetch.hook s1)) v1
                       (UseFetch.error (UseFetch.hook s1))
                       (UseFetch.response (UseFetch.hook s1))
                       (UseFetch.retries (UseFetch.hook s1)) ∧
     UseFetch.generation s1' = UseFetch.generation s1 ∧
     UseFetch.controllers s1' = UseFetch.controllers s1) ∧
  (∃ s2', UseFetchMultiple.step urls (UseFetchMultiple.SetData v2) s2 = Some s2' ∧
     UseFetchMultiple.data (UseFetchMultiple.hook s2') = v2 ∧
     UseFetchMultiple.errors (UseFetchMultiple.hook s2') =
       UseFetchMultiple.errors (UseFetchMultiple.hook s2) ∧
     UseFetchMultiple.error (UseFetchMultiple.hook s2') =
       UseFetchMultiple.error (UseFetchMultiple.hook s2) ∧
     UseFetchMultiple.responses (UseFetchMultiple.hook s2') =
       UseFetchMultiple.responses (UseFetchMultiple.hook s2) ∧
     UseFetchMultiple.retries (UseFetchMultiple.hook s2') =
       UseFetchMultiple.retries (UseFetchMultiple.hook s2) ∧
     UseFetchMultiple.generation s2' = UseFetchMultiple.generation s2 ∧
     UseFetchMultiple.cycles s2' = UseFetchMultiple.cycles s2 ∧
     UseFetchMultiple.targeted s2' = UseFetchMultiple.targeted s2 ∧
     ∀ j, js_get (UseFetchMultiple.loadingIndex (UseFetchMultiple.hook s2')) j =
          if truthy_cell (js_get v2 j) then Some false
          else js_get (UseFetchMultiple.loadingIndex (UseFetchMultiple.hook s2)) j).
Proof.
  intros Hm1 Hm2. split.
  - eexists. split; [reflexivity|]. rewrite single_dispatch_eq, Hm1. done.
  - eexists. split; [reflexivity|]. rewrite dispatch_eq, render_setData, Hm2. simpl.
    split_and!; try done. intros j.
    rewrite loading_flags_from_get, bool_decide_eq_true_2 by lia. by rewrite Nat.sub_0_r.
Qed.

(** C6, amended. In [useFetch] every run of the effect (after [refetch] or
    a change of dependency) re-arms the state before it issues the request:
    [isLoading] is [true] and [error] is empty. In [useFetchMultiple] a new
    run issues its requests and re-arms nothing: [loadingIndex], [errors],
    [data] and [responses] are left as they were. *)
Theorem C6_rearm_on_new_generation
    (s1 : UseFetch.Sys) (ev1 : UseFetch.Event)
    (s2 : UseFetchMultiple.Sys) (ev2 : UseFetchMultiple.Event) :
  UseFetch.mounted s1 = true →
  UseFetchMultiple.mounted s2 = true →
  ev1 = UseFetch.Refetch ∨ ev1 = UseFetch.DepsChange →
  ev2 = UseFetchMultiple.Refetch ∨ ev2 = UseFetchMultiple.DepsChange →
  (∃ s1', UseFetch.step ev1 s1 = Some s1' ∧
     UseFetch.generation s1' = S (UseFetch.generation s1) ∧
     UseFetch.controllers s1' !! UseFetch.generation s1' = Some false ∧
     UseFetch.isLoading (UseFetch.hook s1') = true ∧
     UseFetch.error (UseFetch.hook s1') = "") ∧
  (∃ s2', UseFetchMultiple.step urls ev2 s2 = Some s2' ∧
     UseFetchMultiple.generation s2' = S (UseFetchMultiple.generation s2) ∧
     (urls ≠ [] →
      UseFetchMultiple.cycles s2' !! UseFetchMultiple.generation s2' =
      Some (UseFetchMultiple.fresh_cycle urls)) ∧
     UseFetchMultiple.loadingIndex (UseFetchMultiple.hook s2') =
       UseFetchMultiple.loadingIndex (UseFetchMultiple.hook s2) ∧
     UseFetchMultiple.errors (UseFetchMultiple.hook s2') =
       UseFetchMultiple.errors (UseFetchMultiple.hook s2) ∧
     UseFetchMultiple.data (UseFetchMultiple.hook s2') =
       UseFetchMultiple.data (UseFetchMultiple.hook s2) ∧
     UseFetchMultiple.responses (UseFetchMultiple.hook s2') =
       UseFetchMultiple.responses (UseFetchMultiple.hook s2)).
Proof.
  intros Hm1 Hm2 Hev1 Hev2. split.
  - destruct Hev1 as [-> | ->].
    + rewrite single_step_refetch by done. eexists. split; [done|]. simpl.
      by rewrite lookup_insert_eq.
    + rewrite single_step_depsChange by done. eexists. split; [done|]. simpl.
      by rewrite lookup_insert_eq.
  - destruct Hev2 as [-> | ->]; unfold UseFetchMultiple.step; rewrite Hm2.
    + eexists. split; [done|]. rewrite effect_eq, dispatch_eq, Hm2. simpl.
      split_and!; try done. intros Hne. destruct urls; [done|]. by rewrite lookup_insert_eq.
    + eexists. split; [done|]. rewrite effect_eq. simpl.
      split_and!; try done. intros Hne. destruct urls; [done|]. by rewrite lookup_insert_eq.
Qed.
End SharedClaims.

(** ** The claim about [refetchIndex] *)

Section TargetedRefetch.
Import UseFetchMultiple.
Variable urls : list string.
Arguments render : simpl never.
Arguments effect : simpl never.
Arguments await_all : simpl never.

(** What an event does to the requests of [refetchIndex]: nothing, or it
    issues one, or one settles. *)
Lemma step_targeted ev s s' :
  step urls ev s = Some s' →
  (targeted s' = targeted s ∧ nextTargeted s' = nextTargeted s ∧
   (∀ k o, ev ≠ Settle (Targeted k) o) ∧ (∀ j, ev ≠ RefetchIndex j)) ∨
  (∃ j, ev = RefetchIndex j ∧ targeted s' = <[nextTargeted s := j]> (targeted s) ∧
        nextTargeted s' = S (nextTargeted s)) ∨
  (∃ k o, ev = Settle (Targeted k) o ∧ targeted s' = delete k (targeted s) ∧
          nextTargeted s' = nextTargeted s).
Proof.
  destruct ev as [| |v|j|[g j|k'] o|]; intros Hstep.
  - apply (inj Some) in Hstep as <-. rewrite effect_eq, dispatch_eq.
    left. by destruct s as [h [] g cy tg nt].
  - apply (inj Some) in Hstep as <-. rewrite effect_eq.
    left. by destruct s as [h [] g cy tg nt].
  - apply (inj Some) in Hstep as <-. rewrite dispatch_eq.
    left. by destruct s as [h [] g cy tg nt].
  - apply (inj Some) in Hstep as <-. right. left. by exists j.
  - apply step_settle_bulk_inv in Hstep as (c & ab & _ & _ & _ & _ & _ & _ & _ & -> & ->).
    by left.
  - apply step_settle_targeted_inv in Hstep as (i' & _ & _ & ->).
    right. right. by exists k', o.
  - apply (inj Some) in Hstep as <-. left. by destruct s as [h [] g cy tg nt].
Qed.

(** The requests of [refetchIndex] in flight were numbered before
    [nextTargeted]. *)
Lemma run_targeted_fresh evs s k :
  run urls evs (mount urls) = Some s → is_Some (targeted s !! k) → k < nextTargeted s.
Proof.
  revert s k. induction evs as [|ev evs IH] using rev_ind; intros s k.
  - intros [= <-]. rewrite mount_eq. simpl. rewrite lookup_empty. by intros [??].
  - intros (s0 & Hrun & Hstep)%run_snoc.
    destruct (step_targeted _ _ _ Hstep)
      as [(-> & -> & _)|[(j & _ & -> & ->)|(k' & o & _ & -> & ->)]].
    + by apply IH.
    + destruct (decide (nextTargeted s0 = k)) as [<-|Hne]; [lia|].
      rewrite lookup_insert_ne by done. intros Hk. specialize (IH _ _ Hrun Hk). lia.
    + destruct (decide (k' = k)) as [->|Hne].
      * rewrite lookup_delete_eq. by intros [??].
      * rewrite lookup_delete_ne by done. by apply IH.
Qed.

(** No event other than its own settling touches a request of
    [refetchIndex]: a bulk [refetch], a change of dependency and the
    teardown abort the controllers of the bulk cycle alone. *)
Lemma targeted_survives ev s s' k i :
  reachable urls s →
  targeted s !! k = Some i →
  (∀ o, ev ≠ Settle (Targeted k) o) →
  step urls ev s = Some s' →
  targeted s' !! k = Some i.
Proof.
  intros [evs Hrun] Hk Hev Hstep.
  destruct (step_targeted _ _ _ Hstep)
    as [(-> & _)|[(j & _ & -> & _)|(k' & o & -> & -> & _)]].
  - done.
  - rewrite lookup_insert_ne; [done|].
    assert (k < nextTargeted s) by (eapply run_targeted_fresh; eauto). lia.
  - rewrite lookup_delete_ne; [done|]. intros ->. by apply (Hev o).
Qed.

Lemma step_settle_targeted s k i o :
  mounted s = true → targeted s !! k = Some i → admissible false o = true →
  step urls (Settle (Targeted k) o) s =
  Some (mkSys (snd (render (refetchIndex_settle i o) (hook s))) true (generation s)
              (cycles s) (delete k (targeted s)) (nextTargeted s)).
Proof.
  intros Hm Hk Hadm. unfold step. rewrite Hk. cbn [mbind option_bind].
  rewrite option_guard_True by done. rewrite dispatch_eq, Hm. done.
Qed.

Lemma step_settle_targeted_enabled s k i o :
  targeted s !! k = Some i → admissible false o = true →
  is_Some (step urls (Settle (Targeted k) o) s).
Proof.
  intros Hk Hadm. unfold step. rewrite Hk. cbn [mbind option_bind].
  rewrite option_guard_True by done. by eexists.
Qed.

(** C8, amended. A request of [refetchIndex(i)] is outside the generations:
    issuing it creates no controller and leaves the generation, the bulk
    cycles and the React state as they are; a bulk [refetch], a change of
    dependency and the teardown leave it in flight, after which it can
    still settle, and it never settles as cancelled. When it settles on a
    mounted component, [retries] and the aggregate [error] are unchanged;
    on success [data[i]] and [responses[i]] are written, [errors] is
    unchanged and [loadingIndex[i]] becomes [false] if the payload is
    truthy; on failure [errors[i]] is written and [data], [responses] and
    [loadingIndex] are unchanged; every other position of every array reads
    as before. *)
Theorem C8_refetchIndex_outside_generations s k i o ev :
  reachable urls s →
  mounted s = true →
  targeted s !! k = Some i →
  admissible false o = true →
  ev = Refetch ∨ ev = DepsChange ∨ ev = Unmount →
  (∀ j, ∃ s1, step urls (RefetchIndex j) s = Some s1 ∧
     hook s1 = hook s ∧ generation s1 = generation s ∧ cycles s1 = cycles s ∧
     targeted s1 !! nextTargeted s = Some j ∧ targeted s1 !! k = Some i) ∧
  (∃ s2, step urls ev s = Some s2 ∧ targeted s2 !! k = Some i ∧
     is_Some (step urls (Settle (Targeted k) o) s2)) ∧
  (∀ e, isCancel e = true → step urls (Settle (Targeted k) (Rejected e)) s = None) ∧
  (∃ s', step urls (Settle (Targeted k) o) s = Some s' ∧
     retries (hook s') = retries (hook s) ∧ error (hook s') = error (hook s) ∧
     generation s' = generation s ∧ cycles s' = cycles s ∧
     match o with
     | Fulfilled res =>
         js_get (data (hook s')) i = Some (res_data res) ∧
         js_get (responses (hook s')) i = Some res ∧
         errors (hook s') = errors (hook s) ∧
         loadingIndex (hook s') =
           (if truthy (res_data res) then js_set i false (loadingIndex (hook s))
            else loadingIndex (hook s)) ∧
         (∀ j, j ≠ i →
            js_get (data (hook s')) j = js_get (data (hook s)) j ∧
            js_get (responses (hook s')) j = js_get (responses (hook s)) j ∧
            js_get (loadingIndex (hook s')) j = js_get (loadingIndex (hook s)) j)
     | Rejected e =>
         js_get (errors (hook s')) i = Some (title_or_default (err_title e)) ∧
         (∀ j, j ≠ i → js_get (errors (hook s')) j = js_get (errors (hook s)) j) ∧
         data (hook s') = data (hook s) ∧
         responses (hook s') = responses (hook s) ∧
         loadingIndex (hook s') = loadingIndex (hook s)
     end).
Proof.
  intros Hreach Hm Hk Hadm Hev. split_and!.
  - intros j. eexists. split; [reflexivity|]. simpl. split_and!; try done.
    + by rewrite lookup_insert_eq.
    + rewrite lookup_insert_ne; [done|]. destruct Hreach as [evs Hrun].
      assert (k < nextTargeted s) by (eapply run_targeted_fresh; eauto). lia.
  - assert (is_Some (step urls ev s)) as [s2 Hs2].
    { destruct Hev as [->| [->| ->]]; by eexists. }
    exists s2. split; [done|].
    assert (targeted s2 !! k = Some i) as Hk2.
    { eapply targeted_survives; [done|done| |done].
      intros o' ->. by destruct Hev as [?|[?|?]]. }
    split; [done|]. by eapply step_settle_targeted_enabled.
  - intros e He. unfold step. rewrite Hk. cbn [mbind option_bind].
    rewrite option_guard_False; [done|]. simpl. rewrite He. done.
  - rewrite (step_settle_targeted s k i o) by done. eexists. split; [done|].
    cbn [hook generation cycles]. pose proof (reachable_flags_follow _ _ Hreach) as Hinv.
    destruct o as [res|e].
    + rewrite render_refetchIndex_fulfilled. cbn [snd data responses errors loadingIndex
        retries error]. rewrite loading_flags_after_set by done.
      split_and!; try done; try apply js_get_set_eq.
      intros j Hj. rewrite !js_get_set_ne by done. split_and!; try done.
      destruct (truthy (res_data res)); [by rewrite js_get_set_ne|done].
    + rewrite render_refetchIndex_rejected. cbn [snd data responses errors loadingIndex
        retries error]. split_and!; try done; try apply js_get_set_eq.
      intros j Hj. by rewrite js_get_set_ne.
Qed.
End TargetedRefetch.

(** ** Cancelled and failed requests *)

Section Cancellation.
Import UseFetchMultiple.
Arguments render : simpl never.
Arguments effect : simpl never.
Arguments await_all : simpl never.

(** A request of an aborted run can only settle as rejected, and that
    leaves [data], [responses] and [loadingIndex] alone: what it writes is
    [errors]. *)
Lemma aborted_settle_keeps_data urls s g c i o s' :
  cycles s !! g = Some c → controllers c !! i = Some true →
  step urls (Settle (Bulk g i) o) s = Some s' →
  (∃ e, o = Rejected e ∧ isCancel e = true) ∧
  data (hook s') = data (hook s) ∧ responses (hook s') = responses (hook s) ∧
  loadingIndex (hook s') = loadingIndex (hook s).
Proof.
  intros Hc Hab Hstep.
  apply step_settle_bulk_inv in Hstep as (c' & ab & Hc' & Hab' & _ & Hadm & -> & _).
  simplify_eq. destruct o as [res|e]; [done|]. simpl in Hadm.
  destruct (isCancel e) eqn:He; [|done].
  split; [by eauto|]. destruct (mounted s); [|done].
  by rewrite render_request_rejected.
Qed.

(** C1, at the failing input. Two urls; [refetch] aborts the controllers of
    run 0 and starts run 1; the request of slot 1 of run 0 then settles
    with the [CanceledError] of axios, and its [catch] callback, which does
    not test [isCancel], writes [errors[1]]. For every slot and every
    state, the callback stores the message of a cancellation like any
    other. *)
Theorem C1_cancelled_request_writes_errors :
  (∃ s1 s2,
     run ["A"; "B"] [Refetch] (mount ["A"; "B"]) = Some s1 ∧
     generation s1 = 1 ∧
     controllers <$> cycles s1 !! 0 = Some [true; true] ∧
     controllers <$> cycles s1 !! 1 = Some [false; false] ∧
     step ["A"; "B"] (Settle (Bulk 0 1) (Rejected CanceledError)) s1 = Some s2 ∧
     errors (hook s1) = [] ∧
     errors (hook s2) = [None; Some (JStr "canceled")]) ∧
  (∀ index h,
     errors (snd (render (request index (Rejected CanceledError)) h)) =
     js_set index (JStr "canceled") (errors h)).
Proof.
  split.
  - eexists _, _. split; [vm_compute; reflexivity|]. split_and!; reflexivity.
  - intros index h. by rewrite render_request_rejected.
Qed.

(** C2, at the failing inputs. In both hooks [refetch] aborts the request
    of run 0, which then settles with the [CanceledError] of axios: [useFetch]
    stores its message in [error] (and the error in [response], and clears
    [isLoading]), [useFetchMultiple] stores it in [errors[0]]. *)
Theorem C2_cancelled_request_is_reported :
  (∃ s,
     UseFetch.run [UseFetch.Refetch; UseFetch.Settle 0 (Rejected CanceledError)]
                  UseFetch.mount = Some s ∧
     UseFetch.error (UseFetch.hook s) = "canceled" ∧
     UseFetch.response (UseFetch.hook s) = UseFetch.OfError CanceledError ∧
     UseFetch.isLoading (UseFetch.hook s) = false) ∧
  (∃ s,
     run ["A"] [Refetch; Settle (Bulk 0 0) (Rejected CanceledError)] (mount ["A"]) = Some s ∧
     js_get (errors (hook s)) 0 = Some (JStr "canceled")).
Proof.
  split.
  - eexists. split; [vm_compute; reflexivity|]. split_and!; reflexivity.
  - eexists. split; [vm_compute; reflexivity|]. reflexivity.
Qed.

(** C3, at the failing inputs. The [catch] callback of [useFetch] returns
    early when the error is not a cancellation and goes on when it is one:
    a failure that is not a cancellation changes no state (the message is
    lost and [isLoading] stays [true]), and a cancellation is stored like a
    failure. *)
Theorem C3_failure_test_is_inverted :
  (∀ h message title,
     snd (UseFetch.fetchData_settle (Rejected (mkError message false title)) h) = h) ∧
  (∀ h message title,
     snd (UseFetch.fetchData_settle (Rejected (mkError message true title)) h) =
     UseFetch.mkHook false (UseFetch.data h) (or_default message)
                     (UseFetch.OfError (mkError message true title)) (UseFetch.retries h)) ∧
  (∃ s,
     UseFetch.run [UseFetch.Settle 0 (Rejected timeoutError)] UseFetch.mount = Some s ∧
     UseFetch.hook s = UseFetch.hook UseFetch.mount ∧
     UseFetch.error (UseFetch.hook s) = "" ∧
     UseFetch.response (UseFetch.hook s) = UseFetch.NoResponse ∧
     UseFetch.isLoading (UseFetch.hook s) = true) ∧
  (∃ s0 s,
     UseFetch.run [UseFetch.Refetch] UseFetch.mount = Some s0 ∧
     UseFetch.step (UseFetch.Settle 0 (Rejected CanceledError)) s0 = Some s ∧
     UseFetch.hook s ≠ UseFetch.hook s0 ∧
     UseFetch.error (UseFetch.hook s) = "canceled").
Proof.
  split_and!.
  - done.
  - done.
  - eexists. split; [vm_compute; reflexivity|]. split_and!; reflexivity.
  - eexists _, _. split; [vm_compute; reflexivity|]. split; [vm_compute; reflexivity|].
    split; [|reflexivity]. vm_compute. discriminate.
Qed.
End Cancellation.

(** ** Scenarios *)

Section Scenarios.
Import UseFetchMultiple.



Lemma C10_aggregate_error_stays_empty_witness :
  ∃ s,
    run ["A"; "B"] [Settle (Bulk 0 1) (Rejected timeoutError); Refetch;
                    Settle (Bulk 0 0) (Rejected CanceledError)] (mount ["A"; "B"]) = Some s ∧
    error (hook s) = "".
Proof.
  eexists. split; [vm_compute; reflexivity|].
  apply (C10_aggregate_error_stays_empty ["A"; "B"]
           [Settle (Bulk 0 1) (Rejected timeoutError); Refetch;
            Settle (Bulk 0 0) (Rejected CanceledError)]).
  vm_compute; reflexivity.
Defined.

Lemma C7_retries_changed_by_refetch_only_witness :
  ∃ s1' s2',
    UseFetch.step UseFetch.Refetch UseFetch.mount = Some s1' ∧
    step ["A"] Refetch (mount ["A"]) = Some s2' ∧
    UseFetch.retries (UseFetch.hook s1') = 1 ∧ retries (hook s2') = 1.
Proof.
  eexists _, _. split; [vm_compute; reflexivity|]. split; [vm_compute; reflexivity|].
  destruct (C7_retries_changed_by_refetch_only ["A"]
              UseFetch.Refetch UseFetch.mount _ Refetch (mount ["A"]) _
              eq_refl eq_refl) as (H1 & H2 & _).
  split; [exact H1|exact H2].
Defined.

Lemma C9_setData_effect_witness :
  (∃ s1', UseFetch.step (UseFetch.SetData (Some (JNum 7))) UseFetch.mount = Some s1' ∧
     UseFetch.data (UseFetch.hook s1') = Some (JNum 7)) ∧
  (∃ s2', step ["A"; "B"] (SetData [None; Some (JRef 2)]) (mount ["A"; "B"]) = Some s2' ∧
     data (hook s2') = [None; Some (JRef 2)] ∧
     js_get (loadingIndex (hook s2')) 1 = Some false).
Proof.
  destruct (C9_setData_effect ["A"; "B"] UseFetch.mount (Some (JNum 7))
              (mount ["A"; "B"]) [None; Some (JRef 2)] eq_refl eq_refl)
    as [(s1' & Hs1 & Hh1 & _) (s2' & Hs2 & Hd & _ & _ & _ & _ & _ & _ & _ & Hl)].
  split.
  - exists s1'. split; [exact Hs1|]. rewrite Hh1. reflexivity.
  - exists s2'. split; [exact Hs2|]. split; [exact Hd|]. exact (Hl 1).
Defined.

(** C9 as stated fails: [setData] in [useFetchMultiple] changes
    [loadingIndex]. *)
Lemma C9_counterexample_setData_changes_loadingIndex :
  ∃ s',
    step ["A"] (SetData [Some (JNum 1)]) (mount ["A"]) = Some s' ∧
    loadingIndex (hook (mount ["A"])) = [Some true] ∧
    loadingIndex (hook s') = [Some false].
Proof. eexists. split; [vm_compute; reflexivity|]. split; reflexivity. Qed.

Lemma C6_rearm_on_new_generation_witness :
  (∃ s1', UseFetch.step UseFetch.Refetch UseFetch.mount = Some s1' ∧
     UseFetch.isLoading (UseFetch.hook s1') = true ∧
     UseFetch.error (UseFetch.hook s1') = "") ∧
  (∃ s2', step ["A"] DepsChange (mount ["A"]) = Some s2' ∧
     loadingIndex (hook s2') = loadingIndex (hook (mount ["A"])) ∧
     errors (hook s2') = errors (hook (mount ["A"]))).
Proof.
  destruct (C6_rearm_on_new_generation ["A"] UseFetch.mount UseFetch.Refetch
              (mount ["A"]) DepsChange eq_refl eq_refl (or_introl eq_refl)
              (or_intror eq_refl))
    as [(s1' & Hs1 & _ & _ & Hl & He) (s2' & Hs2 & _ & _ & Hli & Her & _)].
  split.
  - exists s1'. split; [exact Hs1|]. split; [exact Hl|exact He].
  - exists s2'. split; [exact Hs2|]. split; [exact Hli|exact Her].
Defined.

(** C6 as stated fails for [useFetchMultiple]: after A succeeded and B
    failed, [refetch] starts run 1 with both requests pending, and slot 0
    is still marked as loaded and slot 1 still holds its error. *)
Lemma C6_counterexample_multi_not_rearmed :
  ∃ s,
    run ["A"; "B"] [Settle (Bulk 0 0) (Fulfilled (okResponse 1));
                    Settle (Bulk 0 1) (Rejected timeoutError); Refetch]
        (mount ["A"; "B"]) = Some s ∧
    generation s = 1 ∧
    settled <$> cycles s !! 1 = Some [None; None] ∧
    js_get (loadingIndex (hook s)) 0 = Some false ∧
    js_get (errors (hook s)) 1 = Some (JStr "timeout").
Proof. eexists. split; [vm_compute; reflexivity|]. split_and!; reflexivity. Qed.

Lemma C8_refetchIndex_outside_generations_witness :
  ∃ s s',
    run ["A"] [RefetchIndex 0] (mount ["A"]) = Some s ∧
    step ["A"] (Settle (Targeted 0) (Rejected timeoutError)) s = Some s' ∧
    js_get (errors (hook s')) 0 = Some (JStr "Something went wrong") ∧
    loadingIndex (hook s') = loadingIndex (hook s).
Proof.
  let r := eval vm_compute in (run ["A"] [RefetchIndex 0] (mount ["A"])) in
  lazymatch r with
  | Some ?s0 =>
      destruct (C8_refetchIndex_outside_generations ["A"] s0 0 0 (Rejected timeoutError)
                  Refetch (ex_intro _ [RefetchIndex 0] eq_refl) eq_refl eq_refl eq_refl
                  (or_introl eq_refl))
        as (_ & _ & _ & s' & Hs' & _ & _ & _ & _ & He & _ & _ & _ & Hl);
      exists s0, s'
  end.
  split; [vm_compute; reflexivity|]. split; [exact Hs'|]. split; [exact He|exact Hl].
Defined.

(** C8 as stated fails: when the request of [refetchIndex(0)] succeeds
    with a truthy payload, [loadingIndex[0]] changes. *)
Lemma C8_counterexample_success_changes_loadingIndex :
  ∃ s s',
    run ["A"] [RefetchIndex 0] (mount ["A"]) = Some s ∧
    step ["A"] (Settle (Targeted 0) (Fulfilled (okResponse 1))) s = Some s' ∧
    loadingIndex (hook s) = [Some true] ∧
    loadingIndex (hook s') = [Some false].
Proof.
  eexists _, _. split; [vm_compute; reflexivity|].
  split; [vm_compute; reflexivity|]. split; reflexivity.
Qed.
End Scenarios.

(** * Further properties *)

(** ** [useFetch]: the runs and their requests *)

Section SingleRuns.
Import UseFetch.

Lemma single_run_app evs1 evs2 s :
  run (evs1 ++ evs2) s = run evs1 s ≫= run evs2.
Proof.
  revert s. induction evs1 as [|ev evs1 IH]; intros s; simpl; [done|].
  destruct (step ev s); simpl; [apply IH|done].
Qed.

Lemma single_run_snoc evs ev s s' :
  run (evs ++ [ev]) s = Some s' ↔ ∃ s1, run evs s = Some s1 ∧ step ev s1 = Some s'.
Proof.
  rewrite single_run_app. destruct (run evs s) as [s1|]; cbn [mbind option_bind].
  - assert (run [ev] s1 = step ev s1) as -> by (simpl; by destruct (step ev s1)).
    split; [by exists s1|]. intros (s2 & Heq & Hstep). by simplify_eq.
  - split; [done|]. by intros (s2 & ? & _).
Qed.

(** What an event does to the controllers in flight. *)
Lemma single_step_controllers ev s s' :
  step ev s = Some s' →
  (mounted s = true ∧ (ev = Refetch ∨ ev = DepsChange) ∧ mounted s' = true ∧
   generation s' = S (generation s) ∧
   controllers s' =
     <[S (generation s) := false]> (alter (λ _, true) (generation s) (controllers s))) ∨
  (mounted s = true ∧ ev = Unmount ∧ mounted s' = false ∧
   generation s' = generation s ∧
   controllers s' = alter (λ _, true) (generation s) (controllers s)) ∨
  (mounted s' = mounted s ∧ generation s' = generation s ∧
   ((∃ g o, ev = Settle g o ∧ controllers s' = delete g (controllers s)) ∨
    controllers s' = controllers s)).
Proof.
  destruct ev as [| |v|g o|]; intros Hstep.
  - destruct (mounted s) eqn:Hm.
    + rewrite single_step_refetch in Hstep by done. apply (inj Some) in Hstep as <-.
      left. split_and!; auto.
    + unfold step in Hstep. rewrite Hm in Hstep. apply (inj Some) in Hstep as <-.
      right. right. auto.
  - destruct (mounted s) eqn:Hm.
    + rewrite single_step_depsChange in Hstep by done. apply (inj Some) in Hstep as <-.
      left. split_and!; auto.
    + unfold step in Hstep. rewrite Hm in Hstep. apply (inj Some) in Hstep as <-.
      right. right. auto.
  - apply (inj Some) in Hstep as <-. rewrite single_dispatch_eq.
    right. right. by destruct s as [h [] g c]; auto.
  - apply single_step_settle_inv in Hstep as (ab & _ & _ & ->).
    right. right. simpl. split_and!; eauto.
  - unfold step in Hstep. apply (inj Some) in Hstep as <-.
    destruct (mounted s) eqn:Hm; [right; left|right; right]; simpl; auto.
Qed.

Lemma single_run_latest_live evs s g aborted :
  run evs mount = Some s →
  controllers s !! g = Some aborted →
  g ≤ generation s ∧ (aborted = false → g = generation s ∧ mounted s = true).
Proof.
  revert s g aborted. induction evs as [|ev evs IH] using rev_ind; intros s g ab.
  - intros [= <-]. simpl. intros [[<- <-]|[_ Hg]]%lookup_insert_Some; [done|].
    by rewrite lookup_empty in Hg.
  - intros (s0 & Hrun & Hstep)%single_run_snoc Hg.
    destruct (single_step_controllers _ _ _ Hstep)
      as [(Hm & _ & -> & -> & Hc)|[(Hm & _ & -> & -> & Hc)|(-> & -> & [(g' & o & _ & Hc)|Hc])]];
      rewrite Hc in Hg.
    + destruct (decide (g = S (generation s0))) as [->|Hne]; [done|].
      rewrite lookup_insert_ne in Hg by done.
      apply lookup_alter_Some in Hg as [(_ & x & Hx & ->)|[? Hx]].
      * destruct (IH _ _ _ Hrun Hx). split; [lia|done].
      * destruct (IH _ _ _ Hrun Hx) as [? Himp]. split; [lia|].
        intros ->. destruct Himp; [done|]. congruence.
    + apply lookup_alter_Some in Hg as [(_ & x & Hx & ->)|[? Hx]].
      * destruct (IH _ _ _ Hrun Hx). done.
      * destruct (IH _ _ _ Hrun Hx) as [? Himp]. split; [done|].
        intros ->. destruct Himp; [done|]. congruence.
    + apply lookup_delete_Some in Hg as [_ Hg]. by apply IH.
    + by apply IH.
Qed.

(** X1. In every state [useFetch] reaches, each request in flight belongs
    to a run that has started, and the only one whose controller has not
    been aborted is that of the latest run, on a mounted component: the
    cleanup of the effect aborts the request of the run before. *)
Theorem X1_useFetch_only_latest_request_live evs s g aborted :
  run evs mount = Some s →
  controllers s !! g = Some aborted →
  g ≤ generation s ∧ (aborted = false → g = generation s ∧ mounted s = true).
Proof. apply single_run_latest_live. Qed.

(** X2. In [useFetch] only the request of the latest run can deliver data:
    when a response is committed, in any reachable state, it is the one
    of the current run, and it sets [data] to its body, [response] to
    itself and [isLoading] to [false]. *)
Theorem X2_useFetch_data_comes_from_latest_run evs s g res s' :
  run evs mount = Some s →
  step (Settle g (Fulfilled res)) s = Some s' →
  g = generation s ∧
  hook s' = mkHook false (Some (res_data res)) (error (hook s)) (OfResponse res)
                   (retries (hook s)).
Proof.
  intros Hrun Hstep.
  apply single_step_settle_inv in Hstep as (ab & Hab & Hadm & ->).
  destruct ab; [done|].
  destruct (single_run_latest_live _ _ _ _ Hrun Hab) as [_ [-> Hm]]; [done|].
  split; [done|]. simpl. by rewrite Hm.
Qed.

Lemma single_genuine_failures_invariant evs s :
  run evs mount = Some s →
  Forall genuine_failure evs →
  isLoading (hook s) = true ∧ error (hook s) = "" ∧ response (hook s) = NoResponse.
Proof.
  revert s. induction evs as [|ev evs IH] using rev_ind; intros s.
  - by intros [= <-] _.
  - intros (s0 & Hrun & Hstep)%single_run_snoc [Hevs Hev]%Forall_app.
    rewrite Forall_singleton in Hev.
    destruct (IH _ Hrun Hevs) as (Hl & He & Hr).
    destruct ev as [| |v|g o|].
    + apply (inj Some) in Hstep as <-. destruct s0 as [h [] g c]; done.
    + apply (inj Some) in Hstep as <-. destruct s0 as [h [] g c]; done.
    + apply (inj Some) in Hstep as <-. destruct s0 as [h [] g c]; done.
    + apply single_step_settle_inv in Hstep as (ab & _ & _ & ->).
      destruct o as [res|[m c t]]; [by destruct Hev|]. simpl in Hev. subst c.
      simpl. by destruct (mounted s0).
    + apply (inj Some) in Hstep as <-. destruct s0 as [h [] g c]; done.
Qed.

(** X3. [useFetch] never reports a failure of its own: along any run in
    which no request succeeds and none is cancelled, however many requests
    fail, [error] stays empty, [response] stays [null] and [isLoading]
    stays [true]. *)
Theorem X3_useFetch_failures_never_surface evs s :
  run evs mount = Some s →
  Forall genuine_failure evs →
  isLoading (hook s) = true ∧ error (hook s) = "" ∧ response (hook s) = NoResponse.
Proof. apply single_genuine_failures_invariant. Qed.
End SingleRuns.

(** ** [useFetchMultiple]: the runs and their requests *)

Section MultiRuns.
Import UseFetchMultiple.
Variable urls : list string.
Arguments render : simpl never.
Arguments effect : simpl never.
Arguments await_all : simpl never.

(** What an event does to the runs that are waiting. *)
Lemma multi_step_cycles ev s s' :
  step urls ev s = Some s' →
  (mounted s = true ∧ mounted s' = true ∧ generation s' = S (generation s) ∧
   cycles s' =
     (if urls is [] then delete (S (generation s)) (alter abort (generation s) (cycles s))
      else <[S (generation s) := fresh_cycle urls]>
             (alter abort (generation s) (cycles s)))) ∨
  (mounted s = true ∧ mounted s' = false ∧ generation s' = generation s ∧
   cycles s' = alter abort (generation s) (cycles s)) ∨
  (mounted s' = mounted s ∧ generation s' = generation s ∧
   (cycles s' = cycles s ∨
    ∃ g i c r,
      cycles s !! g = Some c ∧ settled c !! i = Some None ∧
      let c' := mkCycle (controllers c) (<[i := Some r]> (settled c)) in
      cycles s' =
        if mapM id (settled c') is Some _ then delete g (cycles s)
        else <[g := c']> (cycles s))).
Proof.
  destruct ev as [| |v|j|[g j|k] o|]; intros Hstep.
  - apply (inj Some) in Hstep as <-. destruct (mounted s) eqn:Hm.
    + left. rewrite effect_eq, dispatch_eq, Hm. simpl. by split_and!.
    + right. right. split_and!; auto.
  - apply (inj Some) in Hstep as <-. destruct (mounted s) eqn:Hm.
    + left. rewrite effect_eq. simpl. by split_and!.
    + right. right. split_and!; auto.
  - apply (inj Some) in Hstep as <-. rewrite dispatch_eq.
    right. right. destruct s as [h [] g cy tg nt]; simpl; split_and!; auto.
  - apply (inj Some) in Hstep as <-. right. right. simpl. split_and!; auto.
  - unfold step in Hstep. apply bind_Some in Hstep as (c & Hc & Hstep).
    apply bind_Some in Hstep as (aborted & Hab & Hstep).
    apply bind_Some in Hstep as (Hset & _ & Hstep).
    apply bind_Some in Hstep as (Hadm & _ & Hstep).
    rewrite dispatch_eq in Hstep. apply (inj Some) in Hstep as <-.
    right. right. rewrite await_all_eq.
    destruct (render_request_change j o (hook s)) as [-> _].
    split_and!; [by destruct s as [h [] g' cy tg nt]..|].
    right. exists g, j, c, (Fulfilled tt). split_and!; try done.
    unfold with_cycles. cbn [cycles]. rewrite lookup_insert_eq.
    assert (cycles (if mounted s
                    then mkSys (render (request j o) (hook s)).2 (mounted s) (generation s)
                               (cycles s) (targeted s) (nextTargeted s)
                    else s) = cycles s) as -> by (by destruct (mounted s)).
    cbn [settled controllers].
    destruct (mapM id _); [by rewrite delete_insert_eq|done].
  - apply step_settle_targeted_inv in Hstep as (i & _ & _ & ->).
    right. right. simpl. split_and!; auto.
  - apply (inj Some) in Hstep as <-. destruct (mounted s) eqn:Hm.
    + right. left. simpl. split_and!; auto.
    + right. right. split_and!; auto.
Qed.

Lemma abort_controllers (b : bool) c :
  controllers c = (λ _, b) <$> urls →
  controllers (abort c) = (λ _, true) <$> urls.
Proof. intros Hc. unfold abort. simpl. rewrite Hc, <-list_fmap_compose. done. Qed.

(** The invariant of the waiting runs: a run has started, all its
    controllers are aborted unless it is the latest run of a mounted
    component, and one of its requests has not settled. *)
Lemma multi_run_cycles evs s g c :
  run urls evs (mount urls) = Some s →
  cycles s !! g = Some c →
  g ≤ generation s ∧
  controllers c = (λ _, negb (bool_decide (g = generation s) && mounted s)) <$> urls ∧
  length (settled c) = length urls ∧
  None ∈ settled c.
Proof.
  revert s g c. induction evs as [|ev evs IH] using rev_ind; intros s g c.
  - intros [= <-]. rewrite mount_eq. simpl. destruct urls as [|u us] eqn:Hu.
    + by rewrite lookup_empty.
    + intros [<- <-]%lookup_singleton_Some.
      split; [done|]. split; [done|]. split; [simpl; by rewrite length_fmap|]. simpl. left.
  - intros (s0 & Hrun & Hstep)%run_snoc Hg.
    destruct (multi_step_cycles _ _ _ Hstep)
      as [(Hm & -> & -> & Hc)|[(Hm & -> & -> & Hc)|(-> & -> & [Hc|Hc])]].
    + rewrite Hc in Hg. clear Hc.
      assert (g ≠ S (generation s0) →
              alter abort (generation s0) (cycles s0) !! g = Some c →
              g ≤ S (generation s0) ∧
              controllers c = (λ _, negb (bool_decide (g = S (generation s0)) && true)) <$> urls ∧
              length (settled c) = length urls ∧ None ∈ settled c) as Hold.
      { intros Hne Halt. rewrite bool_decide_eq_false_2 by done. simpl.
        apply lookup_alter_Some in Halt as [(-> & c0 & Hc0 & ->)|[Hne' Hc0]].
        - destruct (IH _ _ _ Hrun Hc0) as (? & Hctl & ? & ?).
          split; [lia|]. split; [by eapply abort_controllers|]. done.
        - destruct (IH _ _ _ Hrun Hc0) as (? & Hctl & ? & ?).
          split; [lia|]. rewrite bool_decide_eq_false_2 in Hctl by done. done. }
      destruct urls as [|u us] eqn:Hu.
      * apply lookup_delete_Some in Hg as [Hne Hg]. by apply Hold.
      * apply lookup_insert_Some in Hg as [[<- <-]|[Hne Hg]]; [|by apply Hold].
        rewrite bool_decide_eq_true_2 by done. simpl.
        split; [done|]. split; [done|]. split; [by rewrite length_fmap|]. left.
    + rewrite Hc in Hg. clear Hc. rewrite andb_false_r. simpl.
      apply lookup_alter_Some in Hg as [(-> & c0 & Hc0 & ->)|[Hne' Hc0]].
      * destruct (IH _ _ _ Hrun Hc0) as (? & Hctl & ? & ?).
        split; [lia|]. split; [by eapply abort_controllers|]. done.
      * destruct (IH _ _ _ Hrun Hc0) as (? & Hctl & ? & ?).
        rewrite bool_decide_eq_false_2 in Hctl by done. done.
    + rewrite Hc in Hg. by apply IH.
    + destruct Hc as (g' & i & c0 & r & Hc0 & Hset & Hc). cbn zeta in Hc.
      rewrite Hc in Hg. clear Hc. cbn [settled] in Hg.
      destruct (mapM id (<[i:=Some r]> (settled c0))) eqn:Hall.
      * apply lookup_delete_Some in Hg as [_ Hg]. by apply IH.
      * apply lookup_insert_Some in Hg as [[<- <-]|[_ Hg]]; [|by apply IH].
        destruct (IH _ _ _ Hrun Hc0) as (? & Hctl & Hlen & _).
        split; [done|]. split; [done|]. simpl. split; [by rewrite length_insert|].
        apply mapM_None in Hall. apply Exists_exists in Hall as ([x|] & Hin & Hx); done.
Qed.

(** X4. In every state [useFetchMultiple] reaches, a run that still waits
    for requests has one controller and one slot per url and at least one
    request that has not settled; its controllers are all aborted, unless
    it is the latest run of a mounted component, whose controllers are
    all live: the cleanup aborts the whole previous run. *)
Theorem X4_useFetchMultiple_only_latest_run_live evs s g c :
  run urls evs (mount urls) = Some s →
  cycles s !! g = Some c →
  g ≤ generation s ∧
  length (controllers c) = length urls ∧
  length (settled c) = length urls ∧
  None ∈ settled c ∧
  (∀ i aborted, controllers c !! i = Some aborted →
     (aborted = false ↔ g = generation s ∧ mounted s = true)).
Proof.
  intros Hrun Hg. destruct (multi_run_cycles _ _ _ _ Hrun Hg) as (Hle & Hctl & Hlen & Hpend).
  split_and!; try done.
  - by rewrite Hctl, length_fmap.
  - intros i ab Hi. rewrite Hctl, list_lookup_fmap in Hi.
    destruct (urls !! i); [|done]. simpl in Hi. injection Hi as <-.
    case_bool_decide as Hgen; destruct (mounted s); simpl;
      (split; [by intros ?|by intros [??]]).
Qed.

(** X5. In [useFetchMultiple] only a request of the latest run can deliver
    data in a bulk cycle: when the response of slot [i] of run [g] is
    committed, in any reachable state, [g] is the current run, the
    component is mounted, [i] is the index of a url, and [data[i]] and
    [responses[i]] hold the body and the response. *)
Theorem X5_useFetchMultiple_data_comes_from_latest_run evs s g i res s' :
  run urls evs (mount urls) = Some s →
  step urls (Settle (Bulk g i) (Fulfilled res)) s = Some s' →
  g = generation s ∧ mounted s = true ∧ i < length urls ∧
  js_get (data (hook s')) i = Some (res_data res) ∧
  js_get (responses (hook s')) i = Some res.
Proof.
  intros Hrun Hstep.
  apply step_settle_bulk_inv in Hstep as (c & ab & Hc & Hab & _ & Hadm & -> & _).
  destruct ab; [done|].
  destruct (multi_run_cycles _ _ _ _ Hrun Hc) as (_ & Hctl & _ & _).
  rewrite Hctl, list_lookup_fmap in Hab.
  destruct (urls !! i) eqn:Hi; [|done]. simpl in Hab.
  apply lookup_lt_Some in Hi.
  case_bool_decide as Hgen; [|done]. destruct (mounted s); [|done].
  split_and!; try done; rewrite render_request_fulfilled; apply js_get_set_eq.
Qed.

(** X6. With no url, [useFetchMultiple] never has a bulk request in flight:
    every run is over as soon as it starts, and no request of a bulk cycle
    can settle. *)
Theorem X6_useFetchMultiple_no_urls_no_requests evs s :
  urls = [] →
  run urls evs (mount urls) = Some s →
  cycles s = ∅ ∧ ∀ g i o, step urls (Settle (Bulk g i) o) s = None.
Proof.
  intros Hu Hrun.
  assert (cycles s = ∅) as Hempty.
  { apply map_empty. intros g. destruct (cycles s !! g) as [c|] eqn:Hg; [|done].
    destruct (multi_run_cycles _ _ _ _ Hrun Hg) as (_ & _ & Hlen & Hpend).
    rewrite Hu in Hlen. destruct (settled c); [|done]. by apply elem_of_nil in Hpend. }
  split; [done|]. intros g i o. unfold step. by rewrite Hempty, lookup_empty.
Qed.
End MultiRuns.

(** ** [useFetchMultiple]: what the arrays hold *)

Section MultiArrays.
Import UseFetchMultiple.
Variable urls : list string.
Arguments render : simpl never.
Arguments effect : simpl never.
Arguments await_all : simpl never.

(** What an event does to the React state. *)
Lemma multi_step_hook ev s s' :
  step urls ev s = Some s' →
  let h := hook s in
  hook s' = h ∨
  hook s' = mkHook (data h) (errors h) (error h) (responses h) (loadingIndex h)
                   (retries h + 1) ∨
  (∃ v, ev = SetData v ∧
     hook s' = mkHook v (errors h) (error h) (responses h)
                      (loading_flags_from 0 v (loadingIndex h)) (retries h)) ∨
  (∃ a i res, ev = Settle a (Fulfilled res) ∧
     (∀ g j, a = Bulk g j → j = i) ∧ (∀ k, a = Targeted k → targeted s !! k = Some i) ∧
     hook s' = mkHook (js_set i (res_data res) (data h)) (errors h) (error h)
                      (js_set i res (responses h))
                      (loading_flags_from 0 (js_set i (res_data res) (data h))
                                          (loadingIndex h))
                      (retries h)) ∨
  (∃ i v, hook s' = mkHook (data h) (js_set i v (errors h)) (error h)
                           (responses h) (loadingIndex h) (retries h) ∧
     ((∃ g e, ev = Settle (Bulk g i) (Rejected e) ∧ v = JStr (or_default (err_message e))) ∨
      (∃ k e, ev = Settle (Targeted k) (Rejected e) ∧ v = title_or_default (err_title e)))).
Proof.
  cbn zeta. destruct ev as [| |v|j|[g j|k] o|]; intros Hstep.
  - apply (inj Some) in Hstep as <-. rewrite effect_eq, dispatch_eq, render_refetch.
    destruct (mounted s); simpl; auto.
  - apply (inj Some) in Hstep as <-. rewrite effect_eq. destruct (mounted s); simpl; auto.
  - apply (inj Some) in Hstep as <-. rewrite dispatch_eq, render_setData.
    destruct (mounted s); simpl; [|by auto]. right. right. left. by exists v.
  - apply (inj Some) in Hstep as <-. simpl. auto.
  - apply step_settle_bulk_inv in Hstep as (c & ab & _ & _ & _ & _ & -> & _).
    destruct (mounted s); [|by auto]. destruct o as [res|e].
    + rewrite render_request_fulfilled. do 3 right. left. exists (Bulk g j), j, res.
      split_and!; try done. by intros ?? [= _ ->].
    + rewrite render_request_rejected. do 4 right.
      exists j, (JStr (or_default (err_message e))). split; [done|]. left. by exists g, e.
  - apply step_settle_targeted_inv in Hstep as (i & Hi & _ & ->). simpl.
    destruct (mounted s); [|by auto]. destruct o as [res|e].
    + rewrite render_refetchIndex_fulfilled. do 3 right. left. exists (Targeted k), i, res.
      split_and!; try done. by intros ? [= ->].
    + rewrite render_refetchIndex_rejected. do 4 right.
      exists i, (title_or_default (err_title e)). split; [done|]. right. by exists k, e.
  - apply (inj Some) in Hstep as <-. destruct (mounted s); simpl; auto.
Qed.

(** X7. Nothing ever clears an entry of [errors]: from any state and along
    any events, a slot that holds an error still holds one afterwards, be
    it after a later success of that slot or a [refetch]. *)
Theorem X7_useFetchMultiple_errors_never_cleared evs s1 s2 i :
  run urls evs s1 = Some s2 →
  is_Some (js_get (errors (hook s1)) i) →
  is_Some (js_get (errors (hook s2)) i).
Proof.
  revert s1. induction evs as [|ev evs IH]; intros s1.
  - by intros [= <-].
  - simpl. destruct (step urls ev s1) as [s|] eqn:Hstep; [|done]. simpl.
    intros Hrun Hi. apply (IH s Hrun).
    destruct (multi_step_hook _ _ _ Hstep)
      as [->|[->|[(v & _ & ->)|[(a & j & res & _ & _ & _ & ->)|(j & m & -> & _)]]]];
      try done.
    simpl. rewrite js_get_set. by case_decide.
Qed.

Lemma title_or_default_truthy t : truthy (title_or_default t) = true.
Proof. destruct t as [v|]; simpl; [|done]. by destruct (truthy v) eqn:Hv. Qed.

Lemma or_default_truthy m : truthy (JStr (or_default m)) = true.
Proof.
  simpl. pose proof (or_default_nonempty m) as Hne.
  by destruct (String.eqb_spec (or_default m) "").
Qed.

(** X8. Every entry of [errors] is a truthy value, in every state the hook
    reaches: it is never [null], [false], [0] or the empty string, because
    a missing or falsy message or title is replaced by
    'Something went wrong'. The entries are strings as long as no request
    of [refetchIndex] fails; the title that [refetchIndex] stores is kept
    as the reply gives it, of whatever type. *)
Theorem X8_useFetchMultiple_errors_always_truthy evs s i v :
  run urls evs (mount urls) = Some s →
  js_get (errors (hook s)) i = Some v →
  (v ≠ JNull ∧ v ≠ JBool false ∧ v ≠ JNum 0 ∧ v ≠ JStr "") ∧
  (Forall not_targeted_failure evs → ∃ m, v = JStr m).
Proof.
  rewrite <-truthy_spec.
  revert s i v. induction evs as [|ev evs IH] using rev_ind; intros s i v.
  - intros [= <-]. rewrite mount_eq. by destruct i.
  - intros (s0 & Hrun & Hstep)%run_snoc.
    assert (Forall not_targeted_failure (evs ++ [ev]) → Forall not_targeted_failure evs)
      as Hpre by (by intros [? _]%Forall_app).
    destruct (multi_step_hook _ _ _ Hstep)
      as [->|[->|[(d & _ & ->)|[(a & j & res & _ & _ & _ & ->)|(j & w & -> & Hw)]]]];
      try (intros Hi; destruct (IH _ _ _ Hrun Hi) as [? ?]; by auto).
    simpl. rewrite js_get_set. case_decide as Hij.
    + intros [= <-]. destruct Hw as [(g & e & -> & ->)|(k & e & -> & ->)].
      * split; [apply or_default_truthy|]. intros _. by eexists.
      * split; [apply title_or_default_truthy|].
        intros [_ Hev]%Forall_app. rewrite Forall_singleton in Hev. done.
    + intros Hi. destruct (IH _ _ _ Hrun Hi) as [? ?]. by auto.
Qed.

(** X9. As long as [setData] is not called, [data] and [responses] go
    together: in every state the hook reaches, [data[i]] is the body of
    [responses[i]], and is [undefined] where there is no response. *)
Theorem X9_useFetchMultiple_data_is_body_of_response evs s i :
  run urls evs (mount urls) = Some s →
  Forall not_setData evs →
  js_get (data (hook s)) i = res_data <$> js_get (responses (hook s)) i.
Proof.
  revert s i. induction evs as [|ev evs IH] using rev_ind; intros s i.
  - intros [= <-] _. rewrite mount_eq. by destruct i.
  - intros (s0 & Hrun & Hstep)%run_snoc [Hevs Hev]%Forall_app.
    rewrite Forall_singleton in Hev.
    destruct (multi_step_hook _ _ _ Hstep)
      as [->|[->|[(v & -> & _)|[(a & j & res & _ & _ & _ & ->)|(j & m' & -> & _)]]]].
    + by apply IH.
    + by apply IH.
    + by destruct Hev.
    + simpl. rewrite !js_get_set. case_decide; [done|by apply IH].
    + by apply IH.
Qed.

Lemma loading_flags_from_length i d flags :
  i + length d ≤ length flags →
  length (loading_flags_from i d flags) = length flags.
Proof.
  revert i flags. induction d as [|c d IH]; intros i flags Hlen; [done|].
  simpl in *. rewrite IH.
  - destruct (truthy_cell c); [|done]. rewrite js_set_length. lia.
  - destruct (truthy_cell c); [|lia]. rewrite js_set_length. lia.
Qed.

Lemma multi_run_bulk_only evs s :
  run urls evs (mount urls) = Some s →
  Forall bulk_only evs →
  targeted s = ∅ ∧
  length (data (hook s)) ≤ length urls ∧
  length (responses (hook s)) ≤ length urls ∧
  length (errors (hook s)) ≤ length urls ∧
  length (loadingIndex (hook s)) = length urls.
Proof.
  revert s. induction evs as [|ev evs IH] using rev_ind; intros s.
  - intros [= <-] _. rewrite mount_eq. simpl. unfold js_fill.
    rewrite length_replicate. split_and!; try done; lia.
  - intros (s0 & Hrun & Hstep)%run_snoc [Hevs Hev]%Forall_app.
    rewrite Forall_singleton in Hev.
    destruct (IH _ Hrun Hevs) as (Htg & Hd & Hr & He & Hl).
    assert (targeted s = ∅) as Htg'.
    { destruct (step_targeted _ _ _ _ Hstep)
        as [(-> & _)|[(j & -> & _)|(k & o & -> & _)]]; [done|done|].
      apply step_settle_targeted_inv in Hstep as (i & Hi & _).
      by rewrite Htg, lookup_empty in Hi. }
    split; [done|].
    destruct ev as [| |v|j|[g j|k] o|]; try done.
    + apply (inj Some) in Hstep as <-. rewrite effect_eq, dispatch_eq, render_refetch.
      by destruct (mounted s0).
    + apply (inj Some) in Hstep as <-. rewrite effect_eq. by destruct (mounted s0).
    + apply step_settle_bulk_inv in Hstep as (c & ab & Hc & _ & Hset & _ & -> & _).
      destruct (multi_run_cycles _ _ _ _ _ Hrun Hc) as (_ & _ & Hlen & _).
      apply lookup_lt_Some in Hset. rewrite Hlen in Hset.
      destruct (mounted s0); [|done]. destruct o as [res|e].
      * rewrite render_request_fulfilled. simpl.
        rewrite loading_flags_from_length by (rewrite js_set_length; lia).
        rewrite !js_set_length. split_and!; try done; lia.
      * rewrite render_request_rejected. simpl. rewrite js_set_length.
        split_and!; try done; lia.
    + apply step_settle_targeted_inv in Hstep as (i & Hi & _).
      by rewrite Htg, lookup_empty in Hi.
    + apply (inj Some) in Hstep as <-. by destruct (mounted s0).
Qed.

(** X10. As long as neither [setData] nor [refetchIndex] is called, the
    arrays stay within the urls: [loadingIndex] keeps exactly one entry per
    url, and [data], [responses] and [errors] never grow past the number
    of urls, because a bulk cycle only writes at the index of a url. *)
Theorem X10_useFetchMultiple_arrays_within_urls evs s :
  run urls evs (mount urls) = Some s →
  Forall bulk_only evs →
  length (loadingIndex (hook s)) = length urls ∧
  length (data (hook s)) ≤ length urls ∧
  length (responses (hook s)) ≤ length urls ∧
  length (errors (hook s)) ≤ length urls.
Proof.
  intros Hrun Hevs.
  destruct (multi_run_bulk_only _ _ Hrun Hevs) as (_ & ? & ? & ? & ?). done.
Qed.

(** X11. A request of [refetchIndex(i)] and the request of slot [i] of the
    bulk cycle race: when both succeed, [data[i]] and [responses[i]] are
    those of the one that settles last, in either order. *)
Theorem X11_useFetchMultiple_last_settled_wins s g c k i r1 r2 :
  mounted s = true →
  cycles s !! g = Some c →
  controllers c !! i = Some false →
  settled c !! i = Some None →
  targeted s !! k = Some i →
  ∃ s1 s2,
    run urls [Settle (Bulk g i) (Fulfilled r1); Settle (Targeted k) (Fulfilled r2)] s
      = Some s1 ∧
    run urls [Settle (Targeted k) (Fulfilled r2); Settle (Bulk g i) (Fulfilled r1)] s
      = Some s2 ∧
    js_get (data (hook s1)) i = Some (res_data r2) ∧
    js_get (responses (hook s1)) i = Some r2 ∧
    js_get (data (hook s2)) i = Some (res_data r1) ∧
    js_get (responses (hook s2)) i = Some r1.
Proof.
  intros Hm Hc Hab Hset Hk. eexists _, _. split_and!.
  - cbn [run]. rewrite (step_settle_bulk urls s g c i (Fulfilled r1)) by done.
    cbn [mbind option_bind]. erewrite step_settle_targeted by done.
    cbn [mbind option_bind]. reflexivity.
  - cbn [run]. rewrite (step_settle_targeted urls s k i (Fulfilled r2)) by done.
    cbn [mbind option_bind]. erewrite (step_settle_bulk urls _ g c i) by done.
    cbn [mbind option_bind]. reflexivity.
  - cbn [hook]. rewrite render_refetchIndex_fulfilled. apply js_get_set_eq.
  - cbn [hook]. rewrite render_refetchIndex_fulfilled. apply js_get_set_eq.
  - cbn [hook]. rewrite render_request_fulfilled. apply js_get_set_eq.
  - cbn [hook]. rewrite render_request_fulfilled. apply js_get_set_eq.
Qed.
End MultiArrays.

(** ** [useForm] *)

Section Form.
Import UseForm.
Variable payload : gmap string JsVal.
Variable hasSchema : bool.

Lemma form_run_data evs s0 s name :
  run payload hasSchema evs s0 = Some s →
  Forall (λ ev, is_setData ev = false) evs →
  data (hook s) !! name =
  match last_change name evs with
  | Some v => Some (JStr v)
  | None => data (hook s0) !! name
  end.
Proof.
  revert s0. induction evs as [|ev evs IH]; intros s0.
  - by intros [= <-] _.
  - simpl. destruct (step payload hasSchema ev s0) as [s1|] eqn:Hstep; [|done]. simpl.
    intros Hrun [Hev Hevs]%Forall_cons.
    rewrite (IH s1 Hrun Hevs). destruct (last_change name evs) as [v|]; [done|].
    destruct ev as [n v|v|v| | |r]; try done.
    + apply (inj Some) in Hstep as <-. simpl.
      destruct (decide (n = name)) as [->|Hne].
      * by rewrite lookup_insert_eq.
      * by rewrite lookup_insert_ne.
    + by apply (inj Some) in Hstep as <-.
    + by apply (inj Some) in Hstep as <-.
    + unfold step in Hstep. destruct hasSchema; by apply (inj Some) in Hstep as <-.
    + unfold step in Hstep. destruct (pending s0); [done|].
      apply (inj Some) in Hstep as <-. by destruct r.
Qed.

(** X12. As long as [setData] is not called, each field of the form data
    of [useForm] holds the value of the last [handleChange] for its name,
    and the value of the initial payload (or nothing) if there was none;
    validations and errors never touch the form data. *)
Theorem X12_useForm_field_holds_last_change evs s name :
  run payload hasSchema evs (mount payload) = Some s →
  Forall (λ ev, is_setData ev = false) evs →
  data (hook s) !! name =
  match last_change name evs with
  | Some v => Some (JStr v)
  | None => payload !! name
  end.
Proof. intros Hrun Hevs. by rewrite (form_run_data evs _ s name Hrun Hevs). Qed.

Lemma last_message_absent path inner : path ∉ inner.*1 → last_message path inner = None.
Proof.
  induction inner as [|[k v] inner IH]; [done|].
  rewrite fmap_cons, not_elem_of_cons. intros [Hne Hni]. simpl in *.
  rewrite IH by done. by rewrite decide_False.
Qed.

Lemma map_set_keys path message m :
  (map_set path message m).*1 = if decide (path ∈ m.*1) then m.*1 else m.*1 ++ [path].
Proof.
  induction m as [|[k v] m IH].
  - cbn [map_set fmap list_fmap]. by rewrite decide_False by apply not_elem_of_nil.
  - cbn [map_set]. destruct (decide (k = path)) as [->|Hne]; rewrite !fmap_cons.
    + cbn [fst]. rewrite decide_True; [done|]. left.
    + cbn [fst]. rewrite IH. destruct (decide (path ∈ m.*1)) as [Hin|Hni].
      * rewrite decide_True; [done|]. by right.
      * rewrite decide_False; [done|]. rewrite not_elem_of_cons. done.
Qed.

Lemma map_set_NoDup path message m : NoDup m.*1 → NoDup (map_set path message m).*1.
Proof.
  intros Hnd. rewrite map_set_keys. case_decide; [done|].
  apply NoDup_app. split; [done|]. split; [|apply NoDup_singleton].
  intros x Hx ->%list_elem_of_singleton. done.
Qed.

Lemma map_set_last path message m k :
  NoDup m.*1 →
  last_message k (map_set path message m) =
  if decide (path = k) then Some message else last_message k m.
Proof.
  induction m as [|[k' v] m IH]; simpl.
  - intros _. by destruct (decide (path = k)).
  - rewrite NoDup_cons. intros [Hni Hnd]. destruct (decide (k' = path)) as [->|Hne]; simpl.
    + destruct (decide (path = k)) as [->|Hpk].
      * by rewrite last_message_absent.
      * done.
    + rewrite IH by done. destruct (decide (path = k)) as [->|Hpk]; [done|]. done.
Qed.

Lemma errorsMap_last inner m0 k :
  NoDup m0.*1 →
  let m := foldl (λ errorsMap err, map_set err.1 err.2 errorsMap) m0 inner in
  NoDup m.*1 ∧
  last_message k m =
  match last_message k inner with Some x => Some x | None => last_message k m0 end.
Proof.
  revert m0. induction inner as [|[p msg] inner IH]; intros m0 Hnd; [done|].
  cbn zeta. simpl. destruct (IH (map_set p msg m0)) as [Hnd' Hlast].
  { by apply map_set_NoDup. }
  split; [done|]. rewrite Hlast. destruct (last_message k inner); [done|].
  rewrite map_set_last by done. by case_decide.
Qed.

Lemma fromEntries_lookup entries (o : gmap string JsVal) k :
  foldl (λ o e, <[e.1 := JStr e.2]> o) o entries !! k =
  match last_message k entries with Some v => Some (JStr v) | None => o !! k end.
Proof.
  revert o. induction entries as [|[k' v] entries IH]; intros o; [done|].
  simpl. rewrite IH. destruct (last_message k entries); [done|].
  destruct (decide (k' = k)) as [->|Hne].
  - by rewrite lookup_insert_eq.
  - by rewrite lookup_insert_ne.
Qed.

Lemma errors_of_lookup inner path :
  errors_of inner !! path = JStr <$> last_message path inner.
Proof.
  unfold errors_of, fromEntries. rewrite fromEntries_lookup, lookup_empty.
  destruct (errorsMap_last inner [] path) as [_ ->]; [apply NoDup_nil_2|].
  simpl. by destruct (last_message path inner).
Qed.

(** X13. When a validation of [useForm] fails, [errors] becomes exactly the
    object that maps each path with an error to the message of the last
    error for that path: the fields of the payload without an error are
    no longer keys of [errors]. The form data and [valid] are left as they
    are. *)
Theorem X13_useForm_failed_validation_errors s n inner :
  pending s = S n →
  ∃ s',
    step payload hasSchema (Settle (Fails inner)) s = Some s' ∧
    data (hook s') = data (hook s) ∧ valid (hook s') = valid (hook s) ∧
    pending s' = n ∧
    ∀ path, errors (hook s') !! path = JStr <$> last_message path inner.
Proof.
  intros Hp. unfold step. rewrite Hp. eexists. split; [done|]. simpl.
  split_and!; try done. apply errors_of_lookup.
Qed.

Lemma form_run_changes evs s0 s :
  run payload hasSchema evs s0 = Some s →
  Forall (λ ev, is_change ev = true) evs →
  valid (hook s) = valid (hook s0) ∧ errors (hook s) = errors (hook s0) ∧
  pending s = pending s0.
Proof.
  revert s0. induction evs as [|ev evs IH]; intros s0.
  - by intros [= <-] _.
  - simpl. destruct (step payload hasSchema ev s0) as [s1|] eqn:Hstep; [|done]. simpl.
    intros Hrun [Hev Hevs]%Forall_cons. destruct ev; try done.
    apply (inj Some) in Hstep as <-. by destruct (IH _ Hrun Hevs) as (-> & -> & ->).
Qed.

(** X14. Editing never invalidates the form of [useForm]: whatever fields
    [handleChange] changes, [valid] and [errors] stay as the last
    validation left them, until [validate] is called again. *)
Theorem X14_useForm_changes_keep_valid_and_errors evs s0 s :
  run payload hasSchema evs s0 = Some s →
  Forall (λ ev, is_change ev = true) evs →
  valid (hook s) = valid (hook s0) ∧ errors (hook s) = errors (hook s0).
Proof.
  intros Hrun Hevs. by destruct (form_run_changes _ _ _ Hrun Hevs) as (-> & -> & _).
Qed.
End Form.

(** ** [useQueryString] *)

Section QueryString.
Import UseQueryString.
Variable V : Type.
Variable stringify : V → string.

Implicit Types (p sp : Params) (n name : string).

Lemma usp_get_head n p : usp_get n p = head (usp_getAll n p).
Proof. unfold usp_get, usp_getAll. by destruct (filter _ p). Qed.

Lemma usp_getAll_cons n k v p :
  usp_getAll n ((k, v) :: p) = if decide (k = n) then v :: usp_getAll n p else usp_getAll n p.
Proof. unfold usp_getAll. rewrite filter_cons. simpl. by case_decide. Qed.

Lemma usp_delete_cons name k v p :
  usp_delete name ((k, v) :: p) =
  if decide (k = name) then usp_delete name p else (k, v) :: usp_delete name p.
Proof.
  unfold usp_delete. rewrite filter_cons. simpl.
  destruct (decide (k = name)); [by rewrite decide_False by auto|by rewrite decide_True].
Qed.

Lemma usp_getAll_delete n name p :
  usp_getAll n (usp_delete name p) = if decide (n = name) then [] else usp_getAll n p.
Proof.
  induction p as [|[k v] p IH]; [by case_decide|].
  rewrite usp_delete_cons, usp_getAll_cons.
  destruct (decide (k = name)) as [->|Hk].
  - rewrite IH. destruct (decide (n = name)) as [->|Hn]; [done|].
    by rewrite decide_False by auto.
  - rewrite usp_getAll_cons, IH. destruct (decide (n = name)) as [->|Hn].
    + by rewrite decide_False.
    + done.
Qed.

Lemma usp_getAll_set n name value p :
  usp_getAll n (usp_set name value p) =
  if decide (n = name) then [value] else usp_getAll n p.
Proof.
  induction p as [|[k v] p IH].
  - cbn [usp_set]. rewrite usp_getAll_cons.
    destruct (decide (n = name)) as [->|Hn]; [by rewrite decide_True|].
    by rewrite decide_False by auto.
  - cbn [usp_set]. destruct (decide (k = name)) as [->|Hk].
    + rewrite !usp_getAll_cons, usp_getAll_delete.
      destruct (decide (n = name)) as [->|Hn]; [by rewrite decide_True|].
      by rewrite !decide_False by auto.
    + rewrite !usp_getAll_cons, IH.
      destruct (decide (n = name)) as [->|Hn]; [by rewrite decide_False|done].
Qed.

Lemma usp_delete_absent name p : name ∉ p.*1 → usp_delete name p = p.
Proof.
  induction p as [|[k v] p IH]; [done|].
  rewrite fmap_cons, not_elem_of_cons. intros [Hne Hni].
  rewrite usp_delete_cons, decide_False by auto. by rewrite IH.
Qed.

Lemma usp_delete_set name value p :
  usp_delete name (usp_set name value p) = usp_delete name p.
Proof.
  induction p as [|[k v] p IH].
  - cbn [usp_set]. by rewrite usp_delete_cons, decide_True.
  - cbn [usp_set]. destruct (decide (k = name)) as [->|Hk].
    + rewrite !usp_delete_cons, !decide_True by done.
      unfold usp_delete. rewrite list_filter_filter. apply list_filter_iff. tauto.
    + rewrite !usp_delete_cons, !decide_False by done. by rewrite IH.
Qed.

Lemma usp_set_set name value p :
  usp_set name value (usp_set name value p) = usp_set name value p.
Proof.
  induction p as [|[k v] p IH].
  - cbn [usp_set]. rewrite decide_True by done. done.
  - cbn [usp_set]. destruct (decide (k = name)) as [->|Hk].
    + cbn [usp_set]. rewrite decide_True by done. f_equal.
      unfold usp_delete. rewrite list_filter_filter. apply list_filter_iff. tauto.
    + cbn [usp_set]. rewrite decide_False by done. by rewrite IH.
Qed.

(** X15. [createQueryString(name, value)] with a non-empty value returns
    the query string in which [name] has exactly that one value (duplicates
    of the name are gone) and every other name keeps all its values in
    order; doing it again changes nothing. With no value or the empty
    string, nothing is set and the object of the parameters is returned
    instead of a string. *)
Theorem X15_createQueryString_sets_one_value sp name v :
  v ≠ "" →
  ∃ p',
    createQueryString V stringify sp (Key V name (Some v)) = AsString p' ∧
    getQueryString p' name = Some v ∧
    usp_getAll name p' = [v] ∧
    (∀ n, n ≠ name → usp_getAll n p' = usp_getAll n sp ∧
                     getQueryString p' n = getQueryString sp n) ∧
    createQueryString V stringify p' (Key V name (Some v)) = AsString p' ∧
    createQueryString V stringify sp (Key V name None) = AsParams sp ∧
    createQueryString V stringify sp (Key V name (Some "")) = AsParams sp.
Proof.
  intros Hv. exists (usp_set name v sp).
  assert (truthy_string (Some v) = true) as Ht.
  { simpl. by destruct (String.eqb_spec v ""). }
  unfold createQueryString, getQueryString. rewrite Ht.
  split_and!; try done.
  - by rewrite usp_get_head, usp_getAll_set, decide_True.
  - by rewrite usp_getAll_set, decide_True.
  - intros n Hn. rewrite !usp_get_head, usp_getAll_set, decide_False by done. done.
  - by rewrite usp_set_set.
Qed.

Lemma usp_getAll_fields_other n fields p :
  n ∉ fields.*1 →
  usp_getAll n (foldl (λ ps kv, usp_set kv.1 (stringify kv.2) ps) p fields) = usp_getAll n p.
Proof.
  revert p. induction fields as [|[k x] fields IH]; intros p; [done|].
  rewrite fmap_cons, not_elem_of_cons. intros [Hne Hni]. simpl.
  rewrite IH by done. by rewrite usp_getAll_set, decide_False.
Qed.

(** X16. [createQueryString(entry)] with an object sets every key of the
    object to the JSON of its value, as its only value, and leaves every
    other name with all its values. *)
Theorem X16_createQueryString_object sp (fields : list (string * V)) :
  NoDup fields.*1 →
  ∃ p',
    createQueryString V stringify sp (Fields V fields) = AsString p' ∧
    (∀ k x, (k, x) ∈ fields → usp_getAll k p' = [stringify x] ∧
                              getQueryString p' k = Some (stringify x)) ∧
    (∀ n, n ∉ fields.*1 → usp_getAll n p' = usp_getAll n sp).
Proof.
  intros Hnd. eexists. split; [done|]. split.
  - assert (∀ k x p, (k, x) ∈ fields →
            usp_getAll k (foldl (λ ps kv, usp_set kv.1 (stringify kv.2) ps) p fields)
            = [stringify x]) as Hall.
    { clear sp. induction fields as [|[k' x'] fs IH]; intros k x p Hin.
      - by apply elem_of_nil in Hin.
      - rewrite fmap_cons in Hnd. apply NoDup_cons in Hnd as [Hni Hnd].
        apply elem_of_cons in Hin as [[= -> ->]|Hin]; simpl.
        + rewrite usp_getAll_fields_other by done.
          by rewrite usp_getAll_set, decide_True.
        + by apply IH. }
    intros k x Hin. unfold getQueryString. rewrite usp_get_head, (Hall k x) by done. done.
  - intros n Hn. by apply usp_getAll_fields_other.
Qed.

Lemma filter_all {A} (P : A → Prop) `{∀ x, Decision (P x)} (l : list A) :
  (∀ x, P x) → filter P l = l.
Proof.
  intros HP. induction l as [|x l IH]; [done|]. by rewrite filter_cons_True, IH.
Qed.

Lemma filter_none {A} (P : A → Prop) `{∀ x, Decision (P x)} (l : list A) :
  (∀ x, ¬ P x) → filter P l = [].
Proof.
  intros HP. induction l as [|x l IH]; [done|]. by rewrite filter_cons_False.
Qed.

Lemma removeQueryString_filter sp names :
  removeQueryString sp names = filter (λ kv, kv.1 ∉ names) sp.
Proof.
  unfold removeQueryString. revert sp. induction names as [|n names IH]; intros sp.
  - simpl. symmetry. apply filter_all. intros kv. apply not_elem_of_nil.
  - simpl. rewrite IH. unfold usp_delete. rewrite list_filter_filter.
    apply list_filter_iff. intros kv. rewrite not_elem_of_cons. tauto.
Qed.

(** X17. [removeQueryString(...names)] drops every pair whose name is
    among [names] and keeps the others in their order: afterwards a removed
    name reads [null] and any other name reads what it read before. *)
Theorem X17_removeQueryString_removes_exactly sp names n :
  removeQueryString sp names = filter (λ kv, kv.1 ∉ names) sp ∧
  getQueryString (removeQueryString sp names) n =
  if decide (n ∈ names) then None else getQueryString sp n.
Proof.
  split; [apply removeQueryString_filter|].
  rewrite removeQueryString_filter. unfold getQueryString, usp_get.
  rewrite list_filter_filter. destruct (decide (n ∈ names)) as [Hin|Hni].
  - rewrite filter_none; [done|]. intros [k v] [-> Hk]. done.
  - f_equal. f_equal. apply list_filter_iff. intros [k v]. simpl.
    split; [by intros [? _]|]. intros ->. done.
Qed.

(** X18. Removing a name undoes setting it: once the string of
    [createQueryString(name, value)] is the query string,
    [removeQueryString(name)] gives what it gives on the original one, and
    gives back the original parameters when they did not have the name. *)
Theorem X18_removeQueryString_undoes_create sp name v :
  v ≠ "" →
  ∃ p',
    createQueryString V stringify sp (Key V name (Some v)) = AsString p' ∧
    removeQueryString p' [name] = removeQueryString sp [name] ∧
    (name ∉ sp.*1 → removeQueryString p' [name] = sp).
Proof.
  intros Hv. exists (usp_set name v sp).
  assert (truthy_string (Some v) = true) as Ht.
  { simpl. by destruct (String.eqb_spec v ""). }
  unfold createQueryString, removeQueryString. rewrite Ht. simpl.
  split; [done|]. rewrite usp_delete_set. split; [done|]. apply usp_delete_absent.
Qed.
End QueryString.

(** ** Scenarios for the further properties *)

Section FurtherScenarios.

Lemma X1_useFetch_only_latest_request_live_witness :
  ∃ s,
    UseFetch.run [UseFetch.Refetch; UseFetch.DepsChange] UseFetch.mount = Some s ∧
    UseFetch.controllers s !! 2 = Some false ∧
    2 ≤ UseFetch.generation s ∧
    (false = false → 2 = UseFetch.generation s ∧ UseFetch.mounted s = true).
Proof.
  let r := eval vm_compute in
    (UseFetch.run [UseFetch.Refetch; UseFetch.DepsChange] UseFetch.mount) in
  lazymatch r with
  | Some ?s0 =>
      exists s0;
      pose proof (X1_useFetch_only_latest_request_live
                    [UseFetch.Refetch; UseFetch.DepsChange] s0 2 false eq_refl eq_refl)
        as [Hle Hlive]
  end.
  split; [vm_compute; reflexivity|]. split; [reflexivity|]. split; [exact Hle|exact Hlive].
Defined.

Lemma X2_useFetch_data_comes_from_latest_run_witness :
  ∃ s s',
    UseFetch.run [UseFetch.Refetch] UseFetch.mount = Some s ∧
    UseFetch.step (UseFetch.Settle 1 (Fulfilled (okResponse 7))) s = Some s' ∧
    1 = UseFetch.generation s ∧
    UseFetch.data (UseFetch.hook s') = Some (JRef 7).
Proof.
  let r := eval vm_compute in (UseFetch.run [UseFetch.Refetch] UseFetch.mount) in
  lazymatch r with
  | Some ?s0 =>
      let r' := eval vm_compute in
        (UseFetch.step (UseFetch.Settle 1 (Fulfilled (okResponse 7))) s0) in
      lazymatch r' with
      | Some ?s1 =>
          exists s0, s1;
          pose proof (X2_useFetch_data_comes_from_latest_run
                        [UseFetch.Refetch] s0 1 (okResponse 7) s1 eq_refl eq_refl)
            as [Hgen Hhook]
      end
  end.
  split; [vm_compute; reflexivity|]. split; [vm_compute; reflexivity|].
  split; [exact Hgen|]. rewrite Hhook. reflexivity.
Defined.

Lemma X3_useFetch_failures_never_surface_witness :
  ∃ s,
    UseFetch.run [UseFetch.Settle 0 (Rejected timeoutError); UseFetch.SetData None]
                 UseFetch.mount = Some s ∧
    UseFetch.isLoading (UseFetch.hook s) = true ∧
    UseFetch.error (UseFetch.hook s) = "".
Proof.
  let r := eval vm_compute in
    (UseFetch.run [UseFetch.Settle 0 (Rejected timeoutError); UseFetch.SetData None]
                  UseFetch.mount) in
  lazymatch r with
  | Some ?s0 =>
      exists s0;
      pose proof (X3_useFetch_failures_never_surface
                    [UseFetch.Settle 0 (Rejected timeoutError); UseFetch.SetData None] s0
                    eq_refl) as H
  end.
  split; [vm_compute; reflexivity|].
  destruct H as (Hl & He & _).
  - repeat constructor.
  - split; [exact Hl|exact He].
Defined.

Import UseFetchMultiple.

Lemma X4_useFetchMultiple_only_latest_run_live_witness :
  ∃ s c,
    run ["A"; "B"] [Settle (Bulk 0 0) (Fulfilled (okResponse 1)); Refetch]
        (mount ["A"; "B"]) = Some s ∧
    cycles s !! 0 = Some c ∧
    controllers c = [true; true] ∧
    0 ≤ generation s ∧ None ∈ settled c.
Proof.
  let r := eval vm_compute in
    (run ["A"; "B"] [Settle (Bulk 0 0) (Fulfilled (okResponse 1)); Refetch]
         (mount ["A"; "B"])) in
  lazymatch r with
  | Some ?s0 =>
      let rc := eval vm_compute in (cycles s0 !! 0) in
      lazymatch rc with
      | Some ?c0 =>
          exists s0, c0;
          pose proof (X4_useFetchMultiple_only_latest_run_live ["A"; "B"]
                        [Settle (Bulk 0 0) (Fulfilled (okResponse 1)); Refetch] s0 0 c0
                        eq_refl eq_refl) as (Hle & _ & _ & Hpend & _)
      end
  end.
  split; [vm_compute; reflexivity|]. split; [reflexivity|]. split; [reflexivity|].
  split; [exact Hle|exact Hpend].
Defined.

Lemma X5_useFetchMultiple_data_comes_from_latest_run_witness :
  ∃ s s',
    run ["A"; "B"] [Refetch] (mount ["A"; "B"]) = Some s ∧
    step ["A"; "B"] (Settle (Bulk 1 1) (Fulfilled (okResponse 2))) s = Some s' ∧
    1 = generation s ∧
    js_get (data (hook s')) 1 = Some (JRef 2).
Proof.
  let r := eval vm_compute in (run ["A"; "B"] [Refetch] (mount ["A"; "B"])) in
  lazymatch r with
  | Some ?s0 =>
      let r' := eval vm_compute in
        (step ["A"; "B"] (Settle (Bulk 1 1) (Fulfilled (okResponse 2))) s0) in
      lazymatch r' with
      | Some ?s1 =>
          exists s0, s1;
          pose proof (X5_useFetchMultiple_data_comes_from_latest_run ["A"; "B"]
                        [Refetch] s0 1 1 (okResponse 2) s1 eq_refl eq_refl)
            as (Hgen & _ & _ & Hdata & _)
      end
  end.
  split; [vm_compute; reflexivity|]. split; [vm_compute; reflexivity|].
  split; [exact Hgen|exact Hdata].
Defined.

Lemma X6_useFetchMultiple_no_urls_no_requests_witness :
  ∃ s,
    run [] [Refetch; RefetchIndex 0; DepsChange] (mount []) = Some s ∧
    cycles s = ∅ ∧
    step [] (Settle (Bulk 2 0) (Fulfilled (okResponse 1))) s = None.
Proof.
  let r := eval vm_compute in (run [] [Refetch; RefetchIndex 0; DepsChange] (mount [])) in
  lazymatch r with
  | Some ?s0 =>
      exists s0;
      pose proof (X6_useFetchMultiple_no_urls_no_requests []
                    [Refetch; RefetchIndex 0; DepsChange] s0 eq_refl eq_refl)
        as [Hempty Hnone]
  end.
  split; [vm_compute; reflexivity|]. split; [exact Hempty|apply Hnone].
Defined.

Lemma X7_useFetchMultiple_errors_never_cleared_witness :
  ∃ s1 s2,
    run ["A"] [Settle (Bulk 0 0) (Rejected timeoutError)] (mount ["A"]) = Some s1 ∧
    run ["A"] [Refetch; Settle (Bulk 1 0) (Fulfilled (okResponse 1))] s1 = Some s2 ∧
    is_Some (js_get (data (hook s2)) 0) ∧
    is_Some (js_get (errors (hook s2)) 0).
Proof.
  let r := eval vm_compute in
    (run ["A"] [Settle (Bulk 0 0) (Rejected timeoutError)] (mount ["A"])) in
  lazymatch r with
  | Some ?s1 =>
      let r' := eval vm_compute in
        (run ["A"] [Refetch; Settle (Bulk 1 0) (Fulfilled (okResponse 1))] s1) in
      lazymatch r' with
      | Some ?s2 =>
          exists s1, s2;
          pose proof (X7_useFetchMultiple_errors_never_cleared ["A"]
                        [Refetch; Settle (Bulk 1 0) (Fulfilled (okResponse 1))] s1 s2 0
                        eq_refl (ex_intro _ (JStr "timeout") eq_refl)) as Herr
      end
  end.
  split; [vm_compute; reflexivity|]. split; [vm_compute; reflexivity|].
  split; [by eexists|exact Herr].
Defined.

Lemma X8_useFetchMultiple_errors_always_truthy_witness :
  ∃ s,
    run ["A"] [Settle (Bulk 0 0) (Rejected (mkError (Some "") false None))] (mount ["A"])
      = Some s ∧
    js_get (errors (hook s)) 0 = Some (JStr "Something went wrong") ∧
    JStr "Something went wrong" ≠ JStr "" ∧
    ∃ m, JStr "Something went wrong" = JStr m.
Proof.
  let r := eval vm_compute in
    (run ["A"] [Settle (Bulk 0 0) (Rejected (mkError (Some "") false None))]
         (mount ["A"])) in
  lazymatch r with
  | Some ?s0 =>
      exists s0;
      pose proof (X8_useFetchMultiple_errors_always_truthy ["A"]
                    [Settle (Bulk 0 0) (Rejected (mkError (Some "") false None))] s0 0
                    (JStr "Something went wrong") eq_refl eq_refl)
        as [(_ & _ & _ & Hne) Hstr]
  end.
  split; [vm_compute; reflexivity|]. split; [reflexivity|]. split; [exact Hne|].
  apply Hstr. repeat constructor.
Defined.

Lemma X9_useFetchMultiple_data_is_body_of_response_witness :
  ∃ s,
    run ["A"; "B"] [RefetchIndex 1; Settle (Targeted 0) (Fulfilled (okResponse 5));
                    Settle (Bulk 0 1) (Fulfilled (okResponse 2))] (mount ["A"; "B"])
      = Some s ∧
    js_get (data (hook s)) 1 = res_data <$> js_get (responses (hook s)) 1.
Proof.
  let r := eval vm_compute in
    (run ["A"; "B"] [RefetchIndex 1; Settle (Targeted 0) (Fulfilled (okResponse 5));
                     Settle (Bulk 0 1) (Fulfilled (okResponse 2))] (mount ["A"; "B"])) in
  lazymatch r with
  | Some ?s0 =>
      exists s0;
      pose proof (X9_useFetchMultiple_data_is_body_of_response ["A"; "B"]
                    [RefetchIndex 1; Settle (Targeted 0) (Fulfilled (okResponse 5));
                     Settle (Bulk 0 1) (Fulfilled (okResponse 2))] s0 1 eq_refl) as H
  end.
  split; [vm_compute; reflexivity|]. apply H. repeat constructor.
Defined.

Lemma X10_useFetchMultiple_arrays_within_urls_witness :
  ∃ s,
    run ["A"; "B"] [Settle (Bulk 0 1) (Fulfilled (okResponse 2)); Refetch;
                    Settle (Bulk 0 0) (Rejected CanceledError)] (mount ["A"; "B"])
      = Some s ∧
    length (loadingIndex (hook s)) = 2 ∧ length (data (hook s)) ≤ 2.
Proof.
  let r := eval vm_compute in
    (run ["A"; "B"] [Settle (Bulk 0 1) (Fulfilled (okResponse 2)); Refetch;
                     Settle (Bulk 0 0) (Rejected CanceledError)] (mount ["A"; "B"])) in
  lazymatch r with
  | Some ?s0 =>
      exists s0;
      pose proof (X10_useFetchMultiple_arrays_within_urls ["A"; "B"]
                    [Settle (Bulk 0 1) (Fulfilled (okResponse 2)); Refetch;
                     Settle (Bulk 0 0) (Rejected CanceledError)] s0 eq_refl) as H
  end.
  split; [vm_compute; reflexivity|].
  destruct H as (Hl & Hd & _).
  - repeat constructor.
  - split; [exact Hl|exact Hd].
Defined.

Lemma X11_useFetchMultiple_last_settled_wins_witness :
  ∃ s s1 s2,
    run ["A"] [RefetchIndex 0] (mount ["A"]) = Some s ∧
    run ["A"] [Settle (Bulk 0 0) (Fulfilled (okResponse 1));
               Settle (Targeted 0) (Fulfilled (okResponse 2))] s = Some s1 ∧
    run ["A"] [Settle (Targeted 0) (Fulfilled (okResponse 2));
               Settle (Bulk 0 0) (Fulfilled (okResponse 1))] s = Some s2 ∧
    js_get (data (hook s1)) 0 = Some (JRef 2) ∧
    js_get (data (hook s2)) 0 = Some (JRef 1).
Proof.
  let r := eval vm_compute in (run ["A"] [RefetchIndex 0] (mount ["A"])) in
  lazymatch r with
  | Some ?s0 =>
      destruct (X11_useFetchMultiple_last_settled_wins ["A"] s0 0 (fresh_cycle ["A"]) 0 0
                  (okResponse 1) (okResponse 2) eq_refl eq_refl eq_refl eq_refl eq_refl)
        as (s1 & s2 & Hr1 & Hr2 & Hd1 & _ & Hd2 & _);
      exists s0, s1, s2
  end.
  split; [vm_compute; reflexivity|]. split; [exact Hr1|]. split; [exact Hr2|].
  split; [exact Hd1|exact Hd2].
Defined.
Lemma X12_useForm_field_holds_last_change_witness :
  ∃ s,
    UseForm.run {["name" := JStr "Bo"]} true
      [UseForm.Change "name" "Al"; UseForm.Validate; UseForm.Change "name" "Alice";
       UseForm.Settle (UseForm.Fails [("name", "too short")])]
      (UseForm.mount {["name" := JStr "Bo"]}) = Some s ∧
    UseForm.data (UseForm.hook s) !! "name" = Some (JStr "Alice") ∧
    UseForm.data (UseForm.hook s) !! "age" = None.
Proof.
  destruct (UseForm.run {["name" := JStr "Bo"]} true
      [UseForm.Change "name" "Al"; UseForm.Validate; UseForm.Change "name" "Alice";
       UseForm.Settle (UseForm.Fails [("name", "too short")])]
      (UseForm.mount {["name" := JStr "Bo"]})) as [s0|] eqn:Hrun; [|by vm_compute in Hrun].
  exists s0. split; [reflexivity|].
  assert (Forall (λ ev, UseForm.is_setData ev = false)
            [UseForm.Change "name" "Al"; UseForm.Validate; UseForm.Change "name" "Alice";
             UseForm.Settle (UseForm.Fails [("name", "too short")])]) as Hevs
    by repeat constructor.
  split.
  - rewrite (X12_useForm_field_holds_last_change _ _ _ _ "name" Hrun Hevs). reflexivity.
  - rewrite (X12_useForm_field_holds_last_change _ _ _ _ "age" Hrun Hevs). reflexivity.
Defined.

Lemma X13_useForm_failed_validation_errors_witness :
  ∃ s',
    UseForm.step {["name" := JStr ""; "age" := JStr ""]} true
      (UseForm.Settle (UseForm.Fails [("name", "required"); ("name", "too short")]))
      (UseForm.mkSys (UseForm.initial {["name" := JStr ""; "age" := JStr ""]}) 1)
      = Some s' ∧
    UseForm.errors (UseForm.hook s') !! "name" = Some (JStr "too short") ∧
    UseForm.errors (UseForm.hook s') !! "age" = None.
Proof.
  destruct (X13_useForm_failed_validation_errors
              {["name" := JStr ""; "age" := JStr ""]} true
              (UseForm.mkSys (UseForm.initial {["name" := JStr ""; "age" := JStr ""]}) 1)
              0 [("name", "required"); ("name", "too short")] eq_refl)
    as (s' & Hstep & _ & _ & _ & Herr).
  exists s'. split; [exact Hstep|]. split; rewrite Herr; reflexivity.
Defined.

Lemma X14_useForm_changes_keep_valid_and_errors_witness :
  ∃ s0 s,
    UseForm.run {["name" := JStr ""]} false [UseForm.Validate]
      (UseForm.mount {["name" := JStr ""]}) = Some s0 ∧
    UseForm.run {["name" := JStr ""]} false
      [UseForm.Change "name" "A"; UseForm.Change "name" ""] s0 = Some s ∧
    UseForm.valid (UseForm.hook s0) = true ∧
    UseForm.valid (UseForm.hook s) = true.
Proof.
  destruct (UseForm.run {["name" := JStr ""]} false [UseForm.Validate]
              (UseForm.mount {["name" := JStr ""]})) as [s0|] eqn:Hrun0;
    [|by vm_compute in Hrun0].
  destruct (UseForm.run {["name" := JStr ""]} false
              [UseForm.Change "name" "A"; UseForm.Change "name" ""] s0) as [s|] eqn:Hrun;
    [|by vm_compute in Hrun].
  exists s0, s. split; [reflexivity|]. split; [exact Hrun|].
  assert (UseForm.valid (UseForm.hook s0) = true) as Hv0.
  { vm_compute in Hrun0. apply (inj Some) in Hrun0 as <-. reflexivity. }
  split; [exact Hv0|].
  destruct (X14_useForm_changes_keep_valid_and_errors _ _ _ _ _ Hrun) as [Hv _].
  - repeat constructor.
  - by rewrite Hv.
Defined.

Lemma X15_createQueryString_sets_one_value_witness :
  ∃ p',
    UseQueryString.createQueryString JsVal (λ _, "null")
      [("page", "1"); ("q", "a"); ("page", "2")]
      (UseQueryString.Key JsVal "page" (Some "3")) = UseQueryString.AsString p' ∧
    UseQueryString.usp_getAll "page" p' = ["3"] ∧
    UseQueryString.usp_getAll "q" p' = ["a"].
Proof.
  destruct (X15_createQueryString_sets_one_value JsVal (λ _, "null")
              [("page", "1"); ("q", "a"); ("page", "2")] "page" "3")
    as (p' & Hc & _ & Hall & Hother & _); [done|].
  exists p'. split; [exact Hc|]. split; [exact Hall|].
  destruct (Hother "q") as [-> _]; [done|reflexivity].
Defined.

Lemma X16_createQueryString_object_witness :
  ∃ p',
    UseQueryString.createQueryString nat (λ n, if n is 0 then "0" else "1")
      [("page", "1"); ("q", "a"); ("page", "2")]
      (UseQueryString.Fields nat [("page", 0); ("size", 1)]) = UseQueryString.AsString p' ∧
    UseQueryString.usp_getAll "page" p' = ["0"] ∧
    UseQueryString.usp_getAll "size" p' = ["1"] ∧
    UseQueryString.usp_getAll "q" p' = ["a"].
Proof.
  destruct (X16_createQueryString_object nat (λ n, if n is 0 then "0" else "1")
              [("page", "1"); ("q", "a"); ("page", "2")] [("page", 0); ("size", 1)])
    as (p' & Hc & Hin & Hother).
  { apply (bool_decide_unpack _). vm_compute. exact I. }
  exists p'. split; [exact Hc|].
  destruct (Hin "page" 0) as [Hpage _]; [apply (bool_decide_unpack _); vm_compute; exact I|].
  destruct (Hin "size" 1) as [Hsize _]; [apply (bool_decide_unpack _); vm_compute; exact I|].
  split; [exact Hpage|]. split; [exact Hsize|].
  rewrite Hother; [reflexivity|]. apply (bool_decide_unpack _). vm_compute. exact I.
Defined.

Lemma X18_removeQueryString_undoes_create_witness :
  ∃ p',
    UseQueryString.createQueryString JsVal (λ _, "null") [("q", "a")]
      (UseQueryString.Key JsVal "page" (Some "3")) = UseQueryString.AsString p' ∧
    UseQueryString.removeQueryString p' ["page"] = [("q", "a")].
Proof.
  destruct (X18_removeQueryString_undoes_create JsVal (λ _, "null") [("q", "a")] "page" "3")
    as (p' & Hc & _ & Hback); [done|].
  exists p'. split; [exact Hc|]. apply Hback.
  apply (bool_decide_unpack _). vm_compute. exact I.
Defined.
End FurtherScenarios.
